(** * IMI service report editor: the storage key, the photo paginator,
      the photo reorder and the save/load state of [layout.tsx]

    The page component of [layout.tsx] is embedded function by function:
    [computeStorageKey], [paginatePhotos], the updater of [movePhoto],
    [handleChange], the effect that follows the company with the logo,
    [saveToStorage], [loadFromStorage] with the merge of the loaded form,
    and the effect that fills the list of saved reports.

    JavaScript strings are [string], arrays are [list], objects are
    [gmap string _], a number that may be [NaN] is an [option Z], a value
    that may be [undefined] is an [option]. What the host provides is a
    parameter: the offset of its time zone, the date of today, its
    [localStorage] with a quota, and its [JSON] object, of which an
    instance is given and proved to read back what it writes. A handler
    that would throw out of the component returns [None].

    The first part has the definitions, the second the properties. *)

From stdpp Require Import gmap strings list fin_maps pretty.
From Equations Require Import Equations.
From Stdlib Require Import ZArith Ascii Lia ZifyNat Sorted.

Local Open Scope string_scope.
Local Open Scope Z_scope.

(** ** Strings *)

Module JsString.

Definition inRange (lo hi : nat) (c : ascii) : bool :=
  let n := nat_of_ascii c in (lo <=? n)%nat && (n <=? hi)%nat.

(** The complement of the character class of [/[^A-Za-z0-9]/]. *)
Definition isAlnum (c : ascii) : bool :=
  inRange 65 90 c || inRange 97 122 c || inRange 48 57 c.

(** [s.replace(/[^A-Za-z0-9]/g, '')]. *)
Fixpoint stripNonAlnum (s : string) : string :=
  match s with
  | EmptyString => EmptyString
  | String c r => if isAlnum c then String c (stripNonAlnum r) else stripNonAlnum r
  end.

Definition upperChar (c : ascii) : ascii :=
  if inRange 97 122 c then ascii_of_nat (nat_of_ascii c - 32) else c.

(** [s.toUpperCase()], on the letters [a-z]; the source applies it to the
    output of [stripNonAlnum], where no other letter is left. *)
Fixpoint toUpperCase (s : string) : string :=
  match s with
  | EmptyString => EmptyString
  | String c r => String (upperChar c) (toUpperCase r)
  end.

Fixpoint repeat0 (n : nat) : string :=
  match n with O => EmptyString | S k => String "0" (repeat0 k) end.

(** [s.padStart(2, '0')]. *)
Definition padStart2 (s : string) : string :=
  repeat0 (2 - String.length s) +:+ s.

Fixpoint dropChars (n : nat) (s : string) : string :=
  match n, s with
  | S k, String _ r => dropChars k r
  | _, _ => s
  end.

(** [s.slice(-2)]: the last two characters, all of [s] when it is shorter. *)
Definition sliceLast2 (s : string) : string :=
  dropChars (String.length s - 2) s.

(** [s.startsWith(p)] and [s.endsWith(p)]. *)
Definition startsWith (p s : string) : bool := String.prefix p s.
Definition endsWith (p s : string) : bool :=
  String.eqb (dropChars (String.length s - String.length p) s) p
  && (String.length p <=? String.length s)%nat.

(** The characters that are left in the vessel part of a key. *)
Definition isUpperAlnum (c : ascii) : bool := inRange 65 90 c || inRange 48 57 c.

Fixpoint allChars (p : ascii -> bool) (s : string) : bool :=
  match s with
  | EmptyString => true
  | String c r => p c && allChars p r
  end.

(** [String(n)] for an integral number, [None] being [NaN]. *)
Definition ofNumber (n : option Z) : string :=
  match n with Some z => pretty z | None => "NaN" end.

End JsString.

(** ** The [Date] object, as far as [computeStorageKey] uses it

  A time value is a number of milliseconds since the epoch, [None] for
  an invalid date. [new Date(s)] reads the date-only form [YYYY-MM-DD]
  as midnight UTC; [getDate], [getMonth] and [getFullYear] read the
  local time, which is the time value shifted by the offset of the
  host's time zone ([tz], in minutes east of UTC). *)

Module JsDate.

Definition msPerDay : Z := 86400000.
Definition msPerMinute : Z := 60000.

Definition isLeap (y : Z) : bool :=
  ((y mod 4 =? 0) && negb (y mod 100 =? 0)) || (y mod 400 =? 0).

Definition daysInMonth (y m : Z) : Z :=
  if m =? 2 then (if isLeap y then 29 else 28)
  else if (m =? 4) || (m =? 6) || (m =? 9) || (m =? 11) then 30 else 31.

(** Day number (days since 1970-01-01) of the civil date [y]-[m]-[d]. *)
Definition dayFromCivil (y m d : Z) : Z :=
  let y' := if m <=? 2 then y - 1 else y in
  let era := y' / 400 in
  let yoe := y' - era * 400 in
  let mp := if m >? 2 then m - 3 else m + 9 in
  let doy := (153 * mp + 2) / 5 + d - 1 in
  let doe := yoe * 365 + yoe / 4 - yoe / 100 + doy in
  era * 146097 + doe - 719468.

(** Year, month (1..12) and day of the month of a day number. *)
Definition civilFromDay (z : Z) : Z * Z * Z :=
  let z' := z + 719468 in
  let era := z' / 146097 in
  let doe := z' - era * 146097 in
  let yoe := (doe - doe / 1460 + doe / 36524 - doe / 146096) / 365 in
  let doy := doe - (365 * yoe + yoe / 4 - yoe / 100) in
  let mp := (5 * doy + 2) / 153 in
  let d := doy - (153 * mp + 2) / 5 + 1 in
  let m := if mp <? 10 then mp + 3 else mp - 9 in
  let y := yoe + era * 400 in
  (if m <=? 2 then y + 1 else y, m, d).

Definition digit (c : ascii) : option Z :=
  let n := nat_of_ascii c in
  if (48 <=? n)%nat && (n <=? 57)%nat then Some (Z.of_nat n - 48) else None.

Fixpoint digits (acc : Z) (cs : list ascii) : option Z :=
  match cs with
  | [] => Some acc
  | c :: r => match digit c with Some d => digits (10 * acc + d) r | None => None end
  end.

(** [new Date(s)] on the date-only ISO form; every other string is an
    invalid date here. *)
Definition parse (s : string) : option Z :=
  match String.list_ascii_of_string s with
  | [y1; y2; y3; y4; "-"%char; m1; m2; "-"%char; d1; d2] =>
      match digits 0 [y1; y2; y3; y4], digits 0 [m1; m2], digits 0 [d1; d2] with
      | Some y, Some m, Some d =>
          if (1 <=? m) && (m <=? 12) && (1 <=? d) && (d <=? daysInMonth y m)
          then Some (dayFromCivil y m d * msPerDay)
          else None
      | _, _, _ => None
      end
  | _ => None
  end.

Definition localDay (tz : Z) (t : Z) : Z := (t + tz * msPerMinute) / msPerDay.

Definition getFullYear (tz : Z) (t : option Z) : option Z :=
  match t with Some t => Some (fst (fst (civilFromDay (localDay tz t)))) | None => None end.

(** [getMonth] counts from 0. *)
Definition getMonth (tz : Z) (t : option Z) : option Z :=
  match t with Some t => Some (snd (fst (civilFromDay (localDay tz t))) - 1) | None => None end.

Definition getDate (tz : Z) (t : option Z) : option Z :=
  match t with Some t => Some (snd (civilFromDay (localDay tz t))) | None => None end.

(** The two conversions agree on every day of the year [y]. *)
Definition agreeOnMonth (y m : Z) : bool :=
  forallb
    (fun d => match civilFromDay (dayFromCivil y m d) with
              | (y', m', d') => (y' =? y) && (m' =? m) && (d' =? d)
              end)
    (seqZ 1 (daysInMonth y m)).

Definition agreeOnYear (y : Z) : bool := forallb (agreeOnMonth y) (seqZ 1 12).

End JsDate.

(** ** [computeStorageKey] *)

Section StorageKey.

Import JsString.

(** Offset of the host's local time from UTC, in minutes. *)
Variable tz : Z.

(** [(vessel || 'VESSEL').replace(/[^A-Za-z0-9]/g, '').toUpperCase()] *)
Definition vesselKey (vessel : string) : string :=
  toUpperCase (stripNonAlnum (if String.eqb vessel "" then "VESSEL" else vessel)).

Definition computeStorageKey (vessel baseISO : string) : string :=
  let dt := JsDate.parse baseISO in
  let dd := padStart2 (ofNumber (JsDate.getDate tz dt)) in
  let mm := padStart2 (ofNumber (option_map (fun m => m + 1) (JsDate.getMonth tz dt))) in
  let yy := sliceLast2 (ofNumber (JsDate.getFullYear tz dt)) in
  vesselKey vessel +:+ dd +:+ mm +:+ yy.

End StorageKey.


(** ** Arrays

    A JavaScript array is a list of cells; a cell that was never written,
    or that holds [undefined], is [None]. *)

Module JsArray.

(** [a.slice(s, e)] for integers [0 <= s], [0 <= e]. *)
Definition slice {A} (s e : nat) (a : list A) : list A :=
  take (e - s) (drop s a).

(** [a[i]]: [undefined] outside the array. *)
Definition get {A} (a : list (option A)) (i : Z) : option A :=
  if i <? 0 then None else mjoin (a !! Z.to_nat i).

(** [a[i] = v]: writes the cell, past the end it extends the array with
    empty cells; a negative [i] names a property and leaves the cells. *)
Definition set {A} (a : list (option A)) (i : Z) (v : option A) : list (option A) :=
  if i <? 0 then a
  else if i <? Z.of_nat (length a) then <[Z.to_nat i := v]> a
  else a ++ replicate (Z.to_nat i - length a) None ++ [v].

End JsArray.

(** ** [paginatePhotos] *)

Section Paginate.

Context {A : Type}.

(** The loop [for (let i = 0; i < rest.length; i += 4) groups.push(rest.slice(i, i + 4))],
    from the index [i] and the groups pushed so far. *)
Equations? groupsLoop (rest : list A) (i : nat) (groups : list (list A)) : list (list A)
  by wf (length rest - i)%nat lt :=
  groupsLoop rest i groups with decide (i < length rest)%nat := {
    | left _ => groupsLoop rest (i + 4)%nat (groups ++ [JsArray.slice i (i + 4) rest]);
    | right _ => groups }.
Proof. lia. Qed.

(** The number of turns the loop makes from index [i] of [n] photos. *)
Definition turns (n i : nat) : nat := ((n - i + 3) / 4)%nat.

Record Pages := { firstTwo : list A; groups : list (list A) }.

Definition paginatePhotos (arr : list A) : Pages :=
  let firstTwo := JsArray.slice 0 2 arr in
  let rest := drop 2 arr in
  {| firstTwo := firstTwo; groups := groupsLoop rest 0 [] |}.

End Paginate.

Arguments Pages : clear implicits.

(** ** [movePhoto] *)

Record Photo := { id : string; src : string; caption : string }.

(** The state updater of [movePhoto(idx, dir)], [dir] being [-1] or [1]. *)
Definition movePhoto {A} (idx dir : Z) (prev : list (option A)) : list (option A) :=
  let arr := prev in
  let t := idx + dir in
  if (t <? 0) || (t >=? Z.of_nat (length arr)) then prev
  else
    let x := JsArray.get arr t in
    let y := JsArray.get arr idx in
    JsArray.set (JsArray.set arr idx x) t y.

(** ** JSON values and the [JSON] object

    What [JSON.parse] returns and what the component keeps in its state.
    Numbers are integral here. A property that is missing, or [undefined],
    is [None] at the lookup. *)

#[local] Set Warnings "-register-all".

Inductive json :=
| JNull
| JBool (b : bool)
| JNum (n : Z)
| JStr (s : string)
| JArr (l : list json)
| JObj (m : gmap string json).

Module Js.

(** [!!v] *)
Definition truthy (v : option json) : bool :=
  match v with
  | None | Some JNull => false
  | Some (JBool b) => b
  | Some (JNum n) => negb (n =? 0)
  | Some (JStr s) => negb (String.eqb s "")
  | Some (JArr _) | Some (JObj _) => true
  end.

(** [a || b] *)
Definition or (a b : option json) : option json := if truthy a then a else b.

(** [a ?? b], for a [b] that is defined. *)
Definition coalesce (a : option json) (b : json) : json :=
  match a with
  | None | Some JNull => b
  | Some v => v
  end.

(** [v.k] for a name [k] that is neither an index nor [length]; [None] is
    [undefined]. It throws on [null] and [undefined], which the callers
    rule out first. *)
Definition member (v : json) (k : string) : option json :=
  match v with
  | JObj m => m !! k
  | _ => None
  end.

(** [v[0]] *)
Definition first (v : json) : option json :=
  match v with
  | JArr (x :: _) => Some x
  | JStr (String c _) => Some (JStr (String c EmptyString))
  | JObj m => m !! "0"
  | _ => None
  end.

Definition indexed (l : list json) : gmap string json :=
  list_to_map (imap (fun i x => (pretty i, x)) l).

Fixpoint chars (s : string) : list json :=
  match s with
  | EmptyString => []
  | String c r => JStr (String c EmptyString) :: chars r
  end.

(** The own enumerable properties that the spread [{...v}] copies. *)
Definition ownProps (v : json) : gmap string json :=
  match v with
  | JObj m => m
  | JArr l => indexed l
  | JStr s => indexed (chars s)
  | _ => ∅
  end.

(** [typeof v === 'object'] *)
Definition isObjectType (v : json) : bool :=
  match v with
  | JNull | JArr _ | JObj _ => true
  | _ => false
  end.

End Js.

(** The platform's [JSON.stringify] and [JSON.parse]; [None] is the
    [SyntaxError] of [JSON.parse]. *)
Class JsonCodec := {
  JSON_stringify : json -> string;
  JSON_parse : string -> option json;
  JSON_parse_stringify : forall v, JSON_parse (JSON_stringify v) = Some v;
  JSON_parse_empty : JSON_parse "" = None
}.

(** ** A [JSON] object

    A writer and a reader of JSON text for the values above: the reader
    takes blanks between the tokens, the escapes of strings for the
    characters of one byte, and integers. It is an instance of
    [JsonCodec]. *)

Module JsonText.

#[local] Open Scope list_scope.

Abbreviation chars := String.list_ascii_of_string.
Abbreviation text := String.string_of_list_ascii.

Definition code (c : ascii) : nat := nat_of_ascii c.

Definition hexDigit (n : nat) : ascii :=
  ascii_of_nat (if (n <? 10)%nat then 48 + n else 87 + n).

Definition hexValue (c : ascii) : option nat :=
  let n := code c in
  if (48 <=? n)%nat && (n <=? 57)%nat then Some (n - 48)%nat
  else if (97 <=? n)%nat && (n <=? 102)%nat then Some (n - 87)%nat
  else if (65 <=? n)%nat && (n <=? 70)%nat then Some (n - 55)%nat
  else None.

(** How [JSON.stringify] writes one character of a string. *)
Definition escape (c : ascii) : list ascii :=
  let n := code c in
  if (n =? 34)%nat then ["\"%char; "034"%char]
  else if (n =? 92)%nat then chars "\\"
  else if (n =? 8)%nat then chars "\b"
  else if (n =? 9)%nat then chars "\t"
  else if (n =? 10)%nat then chars "\n"
  else if (n =? 12)%nat then chars "\f"
  else if (n =? 13)%nat then chars "\r"
  else if (n <? 32)%nat then chars "\u00" ++ [hexDigit (n / 16); hexDigit (n mod 16)]
  else [c].

Definition quote (s : string) : list ascii :=
  "034"%char :: concat (escape <$> chars s) ++ ["034"%char].

Fixpoint commaSep (parts : list (list ascii)) : list ascii :=
  match parts with
  | [] => []
  | [p] => p
  | p :: rest => p ++ ","%char :: commaSep rest
  end.

Fixpoint write (v : json) : list ascii :=
  match v with
  | JNull => chars "null"
  | JBool true => chars "true"
  | JBool false => chars "false"
  | JNum n => chars (pretty n)
  | JStr s => quote s
  | JArr l => "["%char :: commaSep (write <$> l) ++ ["]"%char]
  | JObj m =>
      "{"%char
      :: commaSep (map_fold (fun k x acc => (quote k ++ ":"%char :: write x) :: acc) [] m)
      ++ ["}"%char]
  end.

Definition stringify (v : json) : string := text (write v).

Definition isWs (c : ascii) : bool :=
  let n := code c in (n =? 32)%nat || (n =? 9)%nat || (n =? 10)%nat || (n =? 13)%nat.

Fixpoint skipWs (s : list ascii) : list ascii :=
  match s with
  | c :: r => if isWs c then skipWs r else s
  | [] => []
  end.

Fixpoint stripPrefix (p s : list ascii) : option (list ascii) :=
  match p, s with
  | [], _ => Some s
  | c :: p', d :: s' => if Ascii.eqb c d then stripPrefix p' s' else None
  | _ :: _, [] => None
  end.

Definition unescape (c : ascii) : option ascii :=
  let n := code c in
  if (n =? 34)%nat || (n =? 92)%nat || (n =? 47)%nat then Some c
  else if (n =? 98)%nat then Some (ascii_of_nat 8)
  else if (n =? 116)%nat then Some (ascii_of_nat 9)
  else if (n =? 110)%nat then Some (ascii_of_nat 10)
  else if (n =? 102)%nat then Some (ascii_of_nat 12)
  else if (n =? 114)%nat then Some (ascii_of_nat 13)
  else None.

(** [\uXXXX], for the code points that fit a character. *)
Definition unicode (h1 h2 h3 h4 : ascii) : option ascii :=
  match hexValue h1, hexValue h2, hexValue h3, hexValue h4 with
  | Some a, Some b, Some c, Some d =>
      let n := (((a * 16 + b) * 16 + c) * 16 + d)%nat in
      if (n <? 128)%nat then Some (ascii_of_nat n) else None
  | _, _, _, _ => None
  end.

(** The characters of a string literal after its opening quote. *)
Fixpoint readString (s : list ascii) : option (list ascii * list ascii) :=
  match s with
  | [] => None
  | c :: r =>
      if (code c =? 34)%nat then Some ([], r)
      else if (code c =? 92)%nat then
        match r with
        | [] => None
        | e :: r1 =>
            if (code e =? 117)%nat then
              match r1 with
              | h1 :: h2 :: h3 :: h4 :: r2 =>
                  match unicode h1 h2 h3 h4, readString r2 with
                  | Some d, Some (t, r3) => Some (d :: t, r3)
                  | _, _ => None
                  end
              | _ => None
              end
            else
              match unescape e, readString r1 with
              | Some d, Some (t, r3) => Some (d :: t, r3)
              | _, _ => None
              end
        end
      else if (code c <? 32)%nat then None
      else
        match readString r with
        | Some (t, r3) => Some (c :: t, r3)
        | None => None
        end
  end.

Definition isDigit (c : ascii) : bool := (48 <=? code c)%nat && (code c <=? 57)%nat.

Fixpoint readDigits (acc : Z) (s : list ascii) : Z * list ascii :=
  match s with
  | c :: r => if isDigit c then readDigits (10 * acc + (Z.of_nat (code c) - 48)) r else (acc, s)
  | [] => (acc, [])
  end.

(** What may follow a number: no digit, fraction or exponent. *)
Definition numEnd (s : list ascii) : bool :=
  match s with
  | d :: _ =>
      negb (isDigit d || (code d =? 46)%nat || (code d =? 101)%nat || (code d =? 69)%nat)
  | [] => true
  end.

(** An integer: [0], or digits that do not start with [0]; a fraction or
    an exponent after it is refused. *)
Definition readNat (s : list ascii) : option (Z * list ascii) :=
  match s with
  | c :: r =>
      if isDigit c then
        let '(n, r') := if (code c =? 48)%nat then (0, r) else readDigits 0 s in
        if numEnd r' then Some (n, r') else None
      else None
  | [] => None
  end.

Definition readNumber (s : list ascii) : option (Z * list ascii) :=
  match s with
  | c :: r =>
      if (code c =? 45)%nat then
        match readNat r with Some (n, r') => Some (- n, r') | None => None end
      else readNat s
  | [] => None
  end.

(** The object of a list of members: a later member wins over an earlier
    one of the same name. *)
Definition toObject (l : list (string * json)) : gmap string json :=
  foldl (fun m kv => <[kv.1 := kv.2]> m) ∅ l.

Fixpoint readValue (n : nat) (s : list ascii) : option (json * list ascii) :=
  match n with
  | O => None
  | S n =>
      match skipWs s with
      | [] => None
      | c :: r =>
          if (code c =? 34)%nat then
            match readString r with
            | Some (t, r') => Some (JStr (text t), r')
            | None => None
            end
          else if (code c =? 91)%nat then
            match skipWs r with
            | d :: r' =>
                if (code d =? 93)%nat then Some (JArr [], r')
                else match readElements n r with
                     | Some (l, r'') => Some (JArr l, r'')
                     | None => None
                     end
            | [] => None
            end
          else if (code c =? 123)%nat then
            match skipWs r with
            | d :: r' =>
                if (code d =? 125)%nat then Some (JObj ∅, r')
                else match readMembers n r with
                     | Some (l, r'') => Some (JObj (toObject l), r'')
                     | None => None
                     end
            | [] => None
            end
          else if (code c =? 110)%nat then
            match stripPrefix (chars "null") (c :: r) with
            | Some r' => Some (JNull, r') | None => None end
          else if (code c =? 116)%nat then
            match stripPrefix (chars "true") (c :: r) with
            | Some r' => Some (JBool true, r') | None => None end
          else if (code c =? 102)%nat then
            match stripPrefix (chars "false") (c :: r) with
            | Some r' => Some (JBool false, r') | None => None end
          else
            match readNumber (c :: r) with
            | Some (z, r') => Some (JNum z, r') | None => None end
      end
  end
with readElements (n : nat) (s : list ascii) : option (list json * list ascii) :=
  match n with
  | O => None
  | S n =>
      match readValue n s with
      | Some (v, r) =>
          match skipWs r with
          | c :: r' =>
              if (code c =? 44)%nat then
                match readElements n r' with
                | Some (l, r'') => Some (v :: l, r'')
                | None => None
                end
              else if (code c =? 93)%nat then Some ([v], r')
              else None
          | [] => None
          end
      | None => None
      end
  end
with readMembers (n : nat) (s : list ascii) : option (list (string * json) * list ascii) :=
  match n with
  | O => None
  | S n =>
      match skipWs s with
      | q :: r =>
          if (code q =? 34)%nat then
            match readString r with
            | Some (k, r1) =>
                match skipWs r1 with
                | c :: r2 =>
                    if (code c =? 58)%nat then
                      match readValue n r2 with
                      | Some (v, r3) =>
                          match skipWs r3 with
                          | d :: r4 =>
                              if (code d =? 44)%nat then
                                match readMembers n r4 with
                                | Some (l, r5) => Some ((text k, v) :: l, r5)
                                | None => None
                                end
                              else if (code d =? 125)%nat then Some ([(text k, v)], r4)
                              else None
                          | [] => None
                          end
                      | None => None
                      end
                    else None
                | [] => None
                end
            | None => None
            end
          else None
      | [] => None
      end
  end.

(** Enough turns for [readValue] to read the value back. *)
Fixpoint size (v : json) : nat :=
  match v with
  | JArr l => S (foldr (fun x acc => S (size x) + acc)%nat 0%nat l)
  | JObj m => S (map_fold (fun _ x acc => S (size x) + acc)%nat 0%nat m)
  | _ => 1
  end.

(** One member of an object, as [write] writes it. *)
Definition member (kv : string * json) : list ascii :=
  quote kv.1 ++ ":"%char :: write kv.2.

(** The sizes of the values of a list, one more for each. *)
Definition weight {A} (f : A -> json) (l : list A) : nat :=
  foldr (fun x acc => S (size (f x)) + acc)%nat 0%nat l.

(** [readValue] reads [v] back, with [n] turns, before [rest]. *)
Definition readsBack (v : json) : Prop :=
  forall n rest, (size v <= n)%nat -> numEnd rest = true ->
    readValue n (write v ++ rest) = Some (v, rest).

Definition parse (s : string) : option json :=
  let cs := chars s in
  match readValue (S (length cs)) cs with
  | Some (v, r) => match skipWs r with [] => Some v | _ => None end
  | None => None
  end.

End JsonText.

(** ** [localStorage]

    The entries in the order [key(i)] enumerates them, and the capacity in
    characters; [setItem] throws when the entries would outgrow it. *)

Module Storage.

Record t := { items : list (string * string); quota : nat }.

Fixpoint assocGet (k : string) (l : list (string * string)) : option string :=
  match l with
  | [] => None
  | (k', v) :: r => if String.eqb k k' then Some v else assocGet k r
  end.

Fixpoint assocSet (k v : string) (l : list (string * string)) : list (string * string) :=
  match l with
  | [] => [(k, v)]
  | (k', v') :: r => if String.eqb k k' then (k, v) :: r else (k', v') :: assocSet k v r
  end.

Definition used (l : list (string * string)) : nat :=
  foldr (fun kv n => (String.length kv.1 + String.length kv.2 + n)%nat) 0%nat l.

Definition getItem (st : t) (k : string) : option string := assocGet k (items st).

(** [None] is the [QuotaExceededError]. *)
Definition setItem (st : t) (k v : string) : option t :=
  let l := assocSet k v (items st) in
  if (used l <=? quota st)%nat then Some {| items := l; quota := quota st |} else None.

Definition key (st : t) (i : nat) : option string := fst <$> items st !! i.

Definition length (st : t) : nat := List.length (items st).

End Storage.

(** ** The component [ServiceReportApp] *)

Inductive CompanyId := IMI | ITI.

#[global] Instance CompanyId_eq_dec : EqDecision CompanyId.
Proof. solve_decision. Defined.

Record Company := {
  name : string; address1 : string; contact : string;
  web : string; reg : string; logoUrl : string }.

Definition COMPANIES (c : CompanyId) : Company :=
  match c with
  | IMI => {| name := "IMI CORPORATION PTE. LTD.";
              address1 := "No. 13, Joo Koon Crescent, Singapore 629021";
              contact := "Tel: (65) 6861 4222 | Fax: (65) 6862 4222";
              web := "sales@imicorp.com.sg | www.imicorp.com.sg";
              reg := "Co. Reg. No.: 199205115N | GST No.: M2-0109564-6";
              logoUrl := "https://imicorp.com.sg/wp-content/uploads/2025/09/logo-small.png" |}
  | ITI => {| name := "I.T.I. CORPORATION PTE. LTD.";
              address1 := "No. 13, Joo Koon Crescent, Singapore 629021";
              contact := "Tel: (65) 6861 4222 | Fax: (65) 6862 4222";
              web := "sales@imicorp.com.sg | www.imicorp.com.sg";
              reg := "Co. Reg. No.: 197801784E | GST No.: M200315839";
              logoUrl := "https://imicorp.com.sg/wp-content/uploads/2025/09/ITI-CORPORATION-LOGO.png" |}
  end.


(** [COMPANIES[id]]: [None] when [id] names no profile (the properties
    that every object inherits are left out). *)
Definition lookupCompany (id : option json) : option CompanyId :=
  match id with
  | Some (JStr s) =>
      if String.eqb s "IMI" then Some IMI
      else if String.eqb s "ITI" then Some ITI else None
  | _ => None
  end.

Record SavedItem := { key : string; label : string; preview : option json }.

Record State := {
  form : gmap string json;
  logoTouched : bool;
  photos : json;
  saveMsg : string;
  savedList : list SavedItem;
  selectedSavedKey : string;
  localStorage : Storage.t }.

Definition setForm (f : gmap string json -> gmap string json) (s : State) : State :=
  {| form := f (form s); logoTouched := logoTouched s; photos := photos s;
     saveMsg := saveMsg s; savedList := savedList s;
     selectedSavedKey := selectedSavedKey s; localStorage := localStorage s |}.

Definition setLogoTouched (b : bool) (s : State) : State :=
  {| form := form s; logoTouched := b; photos := photos s;
     saveMsg := saveMsg s; savedList := savedList s;
     selectedSavedKey := selectedSavedKey s; localStorage := localStorage s |}.

Definition setPhotos (p : json) (s : State) : State :=
  {| form := form s; logoTouched := logoTouched s; photos := p;
     saveMsg := saveMsg s; savedList := savedList s;
     selectedSavedKey := selectedSavedKey s; localStorage := localStorage s |}.

Definition setSaveMsg (m : string) (s : State) : State :=
  {| form := form s; logoTouched := logoTouched s; photos := photos s;
     saveMsg := m; savedList := savedList s;
     selectedSavedKey := selectedSavedKey s; localStorage := localStorage s |}.

Definition setSavedList (f : list SavedItem -> list SavedItem) (s : State) : State :=
  {| form := form s; logoTouched := logoTouched s; photos := photos s;
     saveMsg := saveMsg s; savedList := f (savedList s);
     selectedSavedKey := selectedSavedKey s; localStorage := localStorage s |}.

Definition setSelectedSavedKey (k : string) (s : State) : State :=
  {| form := form s; logoTouched := logoTouched s; photos := photos s;
     saveMsg := saveMsg s; savedList := savedList s;
     selectedSavedKey := k; localStorage := localStorage s |}.

Definition writeStorage (st : Storage.t) (s : State) : State :=
  {| form := form s; logoTouched := logoTouched s; photos := photos s;
     saveMsg := saveMsg s; savedList := savedList s;
     selectedSavedKey := selectedSavedKey s; localStorage := st |}.

(** The initial value of [useState] for the form. *)
Definition initialForm : gmap string json :=
  list_to_map
    [("companyId", JStr "IMI"); ("reportType", JStr "SERVICE REPORT");
     ("customer", JStr ""); ("vessel", JStr ""); ("referenceNo", JStr "");
     ("jobNumber", JStr ""); ("jobDateStart", JStr ""); ("jobDateEnd", JStr "");
     ("location", JStr ""); ("serviceTypes", JArr [JStr "Troubleshooting"]);
     ("serviceTypeOther", JStr ""); ("equipmentMakeModel", JStr "");
     ("findings", JStr ""); ("summary", JStr ""); ("recommendations", JStr "");
     ("preparedBy", JStr ""); ("logoUrl", JStr (logoUrl (COMPANIES IMI)))].

Definition initialState (st : Storage.t) : State :=
  {| form := initialForm; logoTouched := false; photos := JArr [];
     saveMsg := ""; savedList := []; selectedSavedKey := ""; localStorage := st |}.

Module Msg.
Definition saved (k : string) : string := "Saved as " +:+ k.
Definition saveFailed : string := "Save failed (data too large).".
Definition noData : string := "No saved data for this key".
Definition loaded (k : string) : string := "Loaded " +:+ k.
Definition loadFailed : string := "Load failed.".
End Msg.

(** The updater of [setForm] in [loadFromStorage]:
    [{ ...prev, ...data.form, recommendations: data.form.recommendations ?? prev.recommendations ?? '' }],
    for a truthy [data.form]. *)
Definition mergeLoaded (prev : gmap string json) (loaded : json) : gmap string json :=
  let recommendations :=
    Js.coalesce (Js.member loaded "recommendations")
      (Js.coalesce (prev !! "recommendations") (JStr "")) in
  <["recommendations" := recommendations]> (Js.ownProps loaded ∪ prev).

(** Insertion into a list that is descending for the comparator
    [(a, b) => (a.key < b.key ? 1 : -1)] of [items.sort]. *)
Fixpoint insertDesc (x : SavedItem) (l : list SavedItem) : list SavedItem :=
  match l with
  | [] => [x]
  | y :: r => if String.ltb (key x) (key y) then y :: insertDesc x r else x :: y :: r
  end.

Definition sortDesc (l : list SavedItem) : list SavedItem := foldr insertDesc [] l.

(** The saved list has its keys from the greatest to the least. *)
Definition descending (l : list SavedItem) : Prop :=
  StronglySorted (fun a b => String.ltb (key a) (key b) = false) l.

Section App.

Context `{JsonCodec}.

(** Offset of the host's local time from UTC, in minutes. *)
Variable tz : Z.
(** [new Date().toISOString().slice(0, 10)] *)
Variable today : string.

(** The [vessel] argument of [computeStorageKey]. A falsy value takes the
    branch of [vessel || 'VESSEL'] that the empty string takes; a truthy
    value that is no string has no [replace], which is [None]. *)
Definition vesselArg (v : option json) : option string :=
  match v with
  | Some (JStr s) => Some s
  | _ => if Js.truthy v then None else Some ""
  end.

(** The memo [storageKey]. [None] when [computeStorageKey] throws, or when
    the date it is given is no string. *)
Definition storageKey (f : gmap string json) : option string :=
  let baseISO := Js.or (f !! "jobDateEnd") (Js.or (f !! "jobDateStart") (Some (JStr today))) in
  match vesselArg (f !! "vessel"), baseISO with
  | Some v, Some (JStr d) => Some (computeStorageKey tz v d)
  | _, _ => None
  end.

Definition handleChange (name value : string) (s : State) : State :=
  let s1 := if String.eqb name "logoUrl" then setLogoTouched true s else s in
  setForm (insert name (JStr value)) s1.

(** The body of the effect on [form.companyId]. [None] is the [TypeError]
    on an undefined [company]. *)
Definition logoEffect (s : State) : option State :=
  if logoTouched s then Some s
  else
    match lookupCompany (form s !! "companyId") with
    | None => None
    | Some c =>
        if String.eqb (logoUrl (COMPANIES c)) "" then Some s
        else Some (setForm (insert "logoUrl" (JStr (logoUrl (COMPANIES c)))) s)
    end.

(** The render that follows a state change, with the effects it runs: the
    render throws when [form.companyId] names no company, and the effect
    runs when [form.companyId] differs from the one of the render before. *)
Definition afterRender (before s : State) : option State :=
  match lookupCompany (form s !! "companyId") with
  | None => None
  | Some c =>
      if decide (lookupCompany (form before !! "companyId") = Some c) then Some s
      else logoEffect s
  end.

(** [photos[0]?.src] *)
Definition firstSrc (p : json) : option json :=
  match Js.first p with
  | None | Some JNull => None
  | Some x => Js.member x "src"
  end.

Definition record (s : State) : json :=
  JObj (<["form" := JObj (form s)]> (<["photos" := photos s]> ∅)).

(** [saveToStorage], under the key [k] that the render computed. The timer
    that clears the message three seconds later is left out. *)
Definition saveToStorageAt (k : string) (s : State) : State :=
  match Storage.setItem (localStorage s) k (JSON_stringify (record s)) with
  | Some st =>
      let item := {| key := k; label := k; preview := firstSrc (photos s) |} in
      setSavedList (fun prev => item :: filter (fun i => key i ≠ k) prev)
        (setSelectedSavedKey k (setSaveMsg (Msg.saved k) (writeStorage st s)))
  | None => setSaveMsg Msg.saveFailed s
  end.

Definition saveToStorage (s : State) : option State :=
  k ← storageKey (form s); Some (saveToStorageAt k s).

(** [loadFromStorage], for the key [k = key || selectedSavedKey || storageKey]. *)
Definition loadFromStorageAt (k : string) (s : State) : State :=
  match Storage.getItem (localStorage s) k with
  | None => setSaveMsg Msg.noData s
  | Some raw =>
      if String.eqb raw "" then setSaveMsg Msg.noData s
      else
        match JSON_parse raw with
        | None | Some JNull => setSaveMsg Msg.loadFailed s
        | Some data =>
            let s1 :=
              match Js.member data "form" with
              | Some f => if Js.truthy (Some f) then setForm (fun prev => mergeLoaded prev f) s else s
              | None => s
              end in
            let s2 :=
              match Js.member data "photos" with
              | Some p => if Js.truthy (Some p) then setPhotos p s1 else s1
              | None => s1
              end in
            setSaveMsg (Msg.loaded k) s2
        end
  end.

(** [a || b] for a string [a]. *)
Definition orKey (a : string) (b : option string) : option string :=
  if String.eqb a "" then b else Some a.

(** [key || selectedSavedKey || storageKey]; the button passes no [key]. *)
Definition loadKey (key : option string) (s : State) : option string :=
  orKey (default "" key) (orKey (selectedSavedKey s) (storageKey (form s))).

Definition loadFromStorage (key : option string) (s : State) : option State :=
  k ← loadKey key s; Some (loadFromStorageAt k s).

(** One turn of the loop of the effect that fills the saved list: the
    entry for the stored key [k], if it is listed. *)
Definition savedEntry (st : Storage.t) (k : string) : option SavedItem :=
  match Storage.getItem st k with
  | None => None
  | Some raw =>
      if String.eqb raw "" then None
      else
        match JSON_parse raw with
        | None => None
        | Some data =>
            if negb (Js.truthy (Some data)) || negb (Js.isObjectType data) then None
            else
              let preview :=
                match Js.member data "photos" with
                | Some (JArr l) => if Js.truthy (firstSrc (JArr l)) then firstSrc (JArr l) else None
                | _ => None
                end in
              Some {| key := k; label := k; preview := preview |}
        end
  end.

(** The items pushed for [i = 0 .. localStorage.length - 1]. *)
Definition savedItems (st : Storage.t) : list SavedItem :=
  omap (fun i => savedEntry st (default "" (Storage.key st i)))
       (seq 0 (Storage.length st)).

(** The effect that runs on mount. *)
Definition savedListEffect (s : State) : State :=
  let items := sortDesc (savedItems (localStorage s)) in
  let s1 := setSavedList (fun _ => items) s in
  match items with
  | it :: _ => if String.eqb (selectedSavedKey s) "" then setSelectedSavedKey (key it) s1 else s1
  | [] => s1
  end.

(** What the user does: a change of an input or a select, which goes
    through [handleChange], the button Save, and a load, from a button or
    with a key. *)
Inductive Event :=
| Change (name value : string)
| Save
| Load (key : option string).

Definition handle (e : Event) (s : State) : option State :=
  match e with
  | Change name value => Some (handleChange name value s)
  | Save => saveToStorage s
  | Load key => loadFromStorage key s
  end.



(** The handler of an event, then the render and its effects. *)
Definition dispatch (e : Event) (s : State) : option State :=
  s' ← handle e s; afterRender s s'.

Fixpoint run (es : list Event) (s : State) : option State :=
  match es with
  | [] => Some s
  | e :: r => s' ← dispatch e s; run r s'
  end.


End App.

(** ** The shape of the data

    The form as the component types it: every field of the initial form is
    there, a string, but for the list of service types. *)

Definition stringFields : list string :=
  ["companyId"; "reportType"; "customer"; "vessel"; "referenceNo";
   "jobNumber"; "jobDateStart"; "jobDateEnd"; "location"; "serviceTypeOther";
   "equipmentMakeModel"; "findings"; "summary"; "recommendations";
   "preparedBy"; "logoUrl"].

Definition isReportForm (f : gmap string json) : Prop :=
  (forall k, k ∈ stringFields -> exists v, f !! k = Some (JStr v))
  /\ exists l, f !! "serviceTypes" = Some (JArr (JStr <$> l)).

(** The field [recommendations] is there and is not [null]. *)
Definition hasRecommendations (f : gmap string json) : Prop :=
  exists v, f !! "recommendations" = Some v /\ v <> JNull.

Definition photoJson (p : Photo) : json :=
  JObj (<["id" := JStr (id p)]> (<["src" := JStr (src p)]> (<["caption" := JStr (caption p)]> ∅))).

(** A persisted record [{ form, photos }]: the fields of the form that are
    there have the types of the form, and the photos are photos. *)
Definition isPersistedRecord (v : json) : Prop :=
  exists (f : gmap string json) (ps : list Photo),
    v = JObj (<["form" := JObj f]> (<["photos" := JArr (photoJson <$> ps)]> ∅))
    /\ (forall k x, k ∈ stringFields -> f !! k = Some x -> exists t, x = JStr t)
    /\ (forall x, f !! "serviceTypes" = Some x -> exists l, x = JArr (JStr <$> l)).

(** ** The other handlers of the photos and of the service types *)

(** [a.filter((_, i) => p(i))], from the index [i] on. *)
Fixpoint filterIndex {A} (p : nat -> bool) (i : nat) (a : list A) : list A :=
  match a with
  | [] => []
  | x :: r => if p i then x :: filterIndex p (S i) r else filterIndex p (S i) r
  end.

(** The updater of [removePhoto(idx)]: [prev.filter((_, i) => i !== idx)]. *)
Definition removePhoto {A} (idx : Z) (prev : list A) : list A :=
  filterIndex (fun i => negb (Z.of_nat i =? idx)) 0 prev.

(** The updater of the caption input of the photo at [i]:
    [prev.map((ph, idx) => (idx === i ? { ...ph, caption: value } : ph))]. *)
Definition setCaption (i : nat) (value : string) (prev : list Photo) : list Photo :=
  imap (fun idx ph =>
          if decide (idx = i)
          then {| id := id ph; src := src ph; caption := value |}
          else ph) prev.

(** The updater of the checkbox of the service type [opt], on the list
    of strings that the component types [serviceTypes] as. *)
Definition toggleServiceType (opt : string) (serviceTypes : list string) : list string :=
  if decide (opt ∈ serviceTypes)
  then filter (fun x => x ≠ opt) serviceTypes
  else serviceTypes ++ [opt].

(** [list.indexOf(x)]; [None] is [-1]. *)
Fixpoint indexOf (x : string) (l : list string) : option nat :=
  match l with
  | [] => None
  | y :: r => if String.eqb y x then Some 0%nat else S <$> indexOf x r
  end.

(** The memo [serviceTypeDisplay]. *)
Definition serviceTypeDisplay (serviceTypes : list string) (serviceTypeOther : string) : string :=
  let list :=
    match indexOf "Others" serviceTypes with
    | Some idx =>
        if String.eqb serviceTypeOther "" then serviceTypes
        else <[idx := "Others: " +:+ serviceTypeOther]> serviceTypes
    | None => serviceTypes
    end in
  String.concat ", " list.

(** ** The photos of the printable report *)

Record Figure := { figKey : string; figSrc : string; figAlt : string; figCaption : string }.

Inductive PrintItem :=
| Fig (f : Figure)
| PageBreak.

(** The [figure] of a photo: [altNumber] is the number in the alt text of
    a photo without caption, [figNumber] the number in the caption. *)
Definition figure (altNumber figNumber : nat) (p : Photo) : Figure :=
  {| figKey := id p;
     figSrc := src p;
     figAlt := if String.eqb (caption p) "" then "Photo " +:+ pretty altNumber else caption p;
     figCaption :=
       "Fig. " +:+ pretty figNumber
       +:+ (if String.eqb (caption p) "" then "" else " " +:+ caption p) |}.

(** A group of four with its page break. *)
Definition printGroup (firstLength groupsLength gi : nat) (group : list Photo) : list PrintItem :=
  (imap (fun i p => Fig (figure (2 + gi * 4 + i + 1) (firstLength + 1 + gi * 4 + i) p)) group
   ++ (if decide (gi ≠ (groupsLength - 1)%nat) then [PageBreak] else []))%list.

(** What the block PHOTOS of the printable report holds, in the order of
    the document: the figures and the page breaks. *)
Definition printPhotos (photos : list Photo) : list PrintItem :=
  let pages := paginatePhotos photos in
  let firstTwo := firstTwo pages in
  let groupsOfFour := groups pages in
  if (0 <? length photos)%nat then
    ((if (0 <? length firstTwo)%nat
      then imap (fun i p => Fig (figure (i + 1) (i + 1) p)) firstTwo else [])
     ++ (if (0 <? length groupsOfFour)%nat && (0 <? length firstTwo)%nat
         then [PageBreak] else [])
     ++ concat (imap (printGroup (length firstTwo) (length groupsOfFour)) groupsOfFour))%list
  else [].

(** The figures of a printed block, and the number of its page breaks. *)
Definition figures (items : list PrintItem) : list Figure :=
  omap (fun it => match it with Fig f => Some f | PageBreak => None end) items.

Definition pageBreaks (items : list PrintItem) : nat :=
  length (omap (fun it => match it with PageBreak => Some tt | Fig _ => None end) items).

(** ** The value of a date input *)

(** [YYYY-MM-DD], as the inputs of type date give it. *)
Definition isoDate (y m d : Z) : string :=
  JsString.repeat0 (4 - String.length (pretty y)) +:+ pretty y
  +:+ "-" +:+ JsString.padStart2 (pretty m)
  +:+ "-" +:+ JsString.padStart2 (pretty d).

(** The four digits that a date input shows for the year [y] read back
    as [y], and the last two digits of [y] are [y mod 100] on two digits. *)
Definition yearDigitsAgree (y : Z) : bool :=
  match String.list_ascii_of_string
          (JsString.repeat0 (4 - String.length (pretty y)) +:+ pretty y) with
  | [a; b; c; d] =>
      match JsDate.digits 0 [a; b; c; d] with
      | Some y' =>
          (y' =? y)
          && String.eqb (JsString.sliceLast2 (pretty y))
               (JsString.padStart2 (pretty (y mod 100)))
      | None => false
      end
  | _ => false
  end.

(** The two digits that [padStart2] gives for [n] read back as [n]. *)
Definition twoDigitsAgree (n : Z) : bool :=
  match String.list_ascii_of_string (JsString.padStart2 (pretty n)) with
  | [a; b] => match JsDate.digits 0 [a; b] with Some n' => n' =? n | None => false end
  | _ => false
  end.

(** ** Sample data *)

Module Demo.

Definition store : Storage.t := {| Storage.items := []; Storage.quota := 4096 |}.

(** A store too small for any record. *)
Definition fullStore : Storage.t := {| Storage.items := []; Storage.quota := 16 |}.

Definition fill (s : State) : State :=
  handleChange "jobDateEnd" "2025-09-16" (handleChange "vessel" "Sea Wolf" s).

Definition bow : Photo := {| id := "a"; src := "data:a"; caption := "bow" |}.
Definition stern : Photo := {| id := "b"; src := "data:b"; caption := "stern" |}.

(** The form of a job on the Sea Wolf, with two photos. *)
Definition state : State :=
  setPhotos (JArr [photoJson bow; photoJson stern]) (fill (initialState store)).

Definition fullState : State := fill (initialState fullStore).

Definition seaWolfKey : string := "SEAWOLF160925".

(** An entry that is JSON and no record, and one that is no JSON. *)
Definition notARecord : json := JObj (<["photos" := JNum 7]> ∅).

Definition corruptStore : Storage.t :=
  {| Storage.items := [("K", JsonText.stringify notARecord); ("B", "{broken")];
     Storage.quota := 4096 |}.

Definition corruptState : State := initialState corruptStore.

(** A record of the other company, saved with a logo of its own. *)
Definition itiForm : gmap string json :=
  <["logoUrl" := JStr "https://example.com/own.png"]>
    (<["companyId" := JStr "ITI"]> initialForm).

Definition itiStore : Storage.t :=
  {| Storage.items :=
       [("ITI160925",
         JsonText.stringify
           (JObj (<["form" := JObj itiForm]> (<["photos" := JArr []]> ∅))))];
     Storage.quota := 4096 |}.

Definition itiState : State := initialState itiStore.

End Demo.

(** * Properties *)

(** ** The storage key *)

Section StorageKeyFacts.

Import JsString.

Lemma vesselKey_blank : vesselKey "" = "VESSEL".
Proof. reflexivity. Qed.

(** A name that is not blank and has no letter or digit passes the test
    of [vessel || 'VESSEL'] and is then stripped to nothing. *)
Lemma vesselKey_stripped_away vessel :
  vessel <> "" -> stripNonAlnum vessel = "" -> vesselKey vessel = "".
Proof.
  intros Hne Hstrip. unfold vesselKey.
  destruct (String.eqb_spec vessel "") as [->|_]; [done|].
  by rewrite Hstrip.
Qed.

(** The name of a vessel that has a letter or a digit is what is left of
    it after the strip, in upper case. *)
Lemma vesselKey_named vessel :
  vessel <> "" -> vesselKey vessel = toUpperCase (stripNonAlnum vessel).
Proof.
  intros Hne. unfold vesselKey. by destruct (String.eqb_spec vessel "").
Qed.

Lemma upperChar_alnum c : isAlnum c = true -> isUpperAlnum (upperChar c) = true.
Proof. destruct c as [[] [] [] [] [] [] [] []]; (reflexivity || discriminate). Qed.

(** The vessel part of a key has upper-case letters and digits only. *)
Lemma vesselKey_upper_alnum vessel : allChars isUpperAlnum (vesselKey vessel) = true.
Proof.
  unfold vesselKey. generalize (if String.eqb vessel "" then "VESSEL" else vessel).
  intros s. induction s as [|c s IH]; [reflexivity|]. cbn [stripNonAlnum].
  destruct (isAlnum c) eqn:Hc; [|exact IH].
  cbn [toUpperCase allChars]. by rewrite upperChar_alnum, IH.
Qed.

(** The key is the vessel part followed by the day, the month and the year
    of the local date of the time value. *)
Lemma computeStorageKey_parts tz vessel baseISO t :
  JsDate.parse baseISO = Some t ->
  computeStorageKey tz vessel baseISO =
    let '(y, m, d) := JsDate.civilFromDay (JsDate.localDay tz t) in
    vesselKey vessel +:+ padStart2 (pretty d) +:+ padStart2 (pretty m)
      +:+ sliceLast2 (pretty y).
Proof.
  intros Ht. unfold computeStorageKey. rewrite Ht. cbn -[JsDate.civilFromDay pretty].
  destruct (JsDate.civilFromDay (JsDate.localDay tz t)) as [[y m] d].
  cbn -[pretty]. by replace (m - 1 + 1) with m by lia.
Qed.

(** East of Greenwich, or on it, the local day of midnight UTC is the day
    that was parsed; west of it, it is the day before. *)
Lemma localDay_east tz day :
  0 <= tz < 1440 -> JsDate.localDay tz (day * JsDate.msPerDay) = day.
Proof.
  intros Htz. unfold JsDate.localDay, JsDate.msPerDay, JsDate.msPerMinute. lia.
Qed.

Lemma localDay_west tz day :
  -1440 <= tz < 0 -> JsDate.localDay tz (day * JsDate.msPerDay) = day - 1.
Proof.
  intros Htz. unfold JsDate.localDay, JsDate.msPerDay, JsDate.msPerMinute. lia.
Qed.

(** The calendar of the model: from 1970 to 2099, the day number of a date
    gives the date back. *)
Lemma civil_day_agree_1970_2099 : forallb JsDate.agreeOnYear (seqZ 1970 130) = true.
Proof. vm_compute. reflexivity. Qed.

Lemma civilFromDay_dayFromCivil y m d :
  1970 <= y < 2100 -> 1 <= m <= 12 -> 1 <= d <= JsDate.daysInMonth y m ->
  JsDate.civilFromDay (JsDate.dayFromCivil y m d) = (y, m, d).
Proof.
  intros Hy Hm Hd. pose proof civil_day_agree_1970_2099 as Hall.
  rewrite forallb_forall in Hall. specialize (Hall y).
  unfold JsDate.agreeOnYear in Hall. rewrite forallb_forall in Hall.
  specialize (Hall ltac:(apply list_elem_of_In, elem_of_seqZ; lia) m
                   ltac:(apply list_elem_of_In, elem_of_seqZ; lia)).
  unfold JsDate.agreeOnMonth in Hall. rewrite forallb_forall in Hall.
  specialize (Hall d ltac:(apply list_elem_of_In, elem_of_seqZ; lia)).
  destruct (JsDate.civilFromDay _) as [[y' m'] d'].
  apply andb_true_iff in Hall as [Hall Hd']. apply andb_true_iff in Hall as [Hy' Hm'].
  apply Z.eqb_eq in Hy', Hm', Hd'. congruence.
Qed.

(** The key of a date from 1970 to 2099 on a host that is not behind UTC:
    the vessel part, then the day and the month of the date on two digits,
    then the last two digits of its year. *)
Lemma key_east_of_greenwich tz vessel baseISO y m d :
  0 <= tz < 1440 ->
  1970 <= y < 2100 -> 1 <= m <= 12 -> 1 <= d <= JsDate.daysInMonth y m ->
  JsDate.parse baseISO = Some (JsDate.dayFromCivil y m d * JsDate.msPerDay) ->
  computeStorageKey tz vessel baseISO =
    vesselKey vessel +:+ padStart2 (pretty d) +:+ padStart2 (pretty m)
      +:+ sliceLast2 (pretty y).
Proof.
  intros Htz Hy Hm Hd Hparse. rewrite (computeStorageKey_parts _ _ _ _ Hparse).
  rewrite localDay_east by assumption. by rewrite civilFromDay_dayFromCivil.
Qed.

(** On a host behind UTC the key is the one of the day before. *)
Lemma key_west_of_greenwich tz vessel baseISO day :
  -1440 <= tz < 0 ->
  JsDate.parse baseISO = Some (day * JsDate.msPerDay) ->
  computeStorageKey tz vessel baseISO =
    let '(y, m, d) := JsDate.civilFromDay (day - 1) in
    vesselKey vessel +:+ padStart2 (pretty d) +:+ padStart2 (pretty m)
      +:+ sliceLast2 (pretty y).
Proof.
  intros Htz Hparse. rewrite (computeStorageKey_parts _ _ _ _ Hparse).
  by rewrite localDay_west.
Qed.

Lemma parse_2025_09_16 : JsDate.parse "2025-09-16" = Some (20347 * JsDate.msPerDay).
Proof. reflexivity. Qed.

Lemma parse_2025_01_05 : JsDate.parse "2025-01-05" = Some (20093 * JsDate.msPerDay).
Proof. reflexivity. Qed.

(** The two keys that the self-tests of the component look at, on a host
    whose clock is not behind UTC. *)
Lemma key_sea_wolf_east tz :
  0 <= tz < 1440 -> computeStorageKey tz "Sea Wolf" "2025-09-16" = "SEAWOLF160925".
Proof.
  intros Htz. rewrite (computeStorageKey_parts _ _ _ _ parse_2025_09_16).
  rewrite localDay_east by assumption. reflexivity.
Qed.

Lemma key_blank_east tz :
  0 <= tz < 1440 -> computeStorageKey tz "" "2025-01-05" = "VESSEL050125".
Proof.
  intros Htz. rewrite (computeStorageKey_parts _ _ _ _ parse_2025_01_05).
  rewrite localDay_east by assumption. reflexivity.
Qed.

(** The same keys on a host whose clock is behind UTC. *)
Lemma key_sea_wolf_west tz :
  -1440 <= tz < 0 -> computeStorageKey tz "Sea Wolf" "2025-09-16" = "SEAWOLF150925".
Proof.
  intros Htz. rewrite (computeStorageKey_parts _ _ _ _ parse_2025_09_16).
  rewrite localDay_west by assumption. reflexivity.
Qed.

Lemma key_blank_west tz :
  -1440 <= tz < 0 -> computeStorageKey tz "" "2025-01-05" = "VESSEL040125".
Proof.
  intros Htz. rewrite (computeStorageKey_parts _ _ _ _ parse_2025_01_05).
  rewrite localDay_west by assumption. reflexivity.
Qed.

Example key_of_no_date : computeStorageKey 0 "" "yesterday" = "VESSELNaNNaNaN".
Proof. reflexivity. Qed.

Example key_of_leap_day : computeStorageKey 480 "M/V Aurora 7" "2024-02-29" = "MVAURORA7290224".
Proof. reflexivity. Qed.

Lemma key_unparsed_date tz vessel baseISO :
  JsDate.parse baseISO = None ->
  computeStorageKey tz vessel baseISO = vesselKey vessel +:+ "NaNNaNaN".
Proof. intros Hnone. unfold computeStorageKey. by rewrite Hnone. Qed.

End StorageKeyFacts.

(** C1 (the code at the failing input). The name ["---"] is not blank, so
    [vessel || 'VESSEL'] keeps it, and the strip that follows leaves
    nothing: the vessel part of the key is empty, the key is the date
    alone and does not start with ["VESSEL"], which only the blank name
    gets. *)
Theorem C1_punctuation_only_vessel :
  vesselKey "---" = ""
  /\ computeStorageKey 480 "---" "2025-09-16" = "160925"
  /\ JsString.startsWith "VESSEL" (computeStorageKey 480 "---" "2025-09-16") = false
  /\ computeStorageKey 480 "" "2025-09-16" = "VESSEL160925".
Proof. repeat split; reflexivity. Qed.

(** C2 (the code at the failing input). On a host five hours behind UTC the
    date-only string is read as midnight UTC and its day is taken in local
    time, the evening before: the two keys of the self-tests carry the day
    before the reference date. *)
Theorem C2_key_west_of_greenwich :
  computeStorageKey (-300) "Sea Wolf" "2025-09-16" = "SEAWOLF150925"
  /\ JsString.endsWith "160925" (computeStorageKey (-300) "Sea Wolf" "2025-09-16") = false
  /\ computeStorageKey (-300) "" "2025-01-05" = "VESSEL040125"
  /\ JsString.endsWith "050125" (computeStorageKey (-300) "" "2025-01-05") = false.
Proof. repeat split; reflexivity. Qed.

(** ** The photo paginator *)

Section PaginateFacts.

Context {A : Type}.
Implicit Types (arr rest : list A) (acc : list (list A)).

(** The group that starts at index [i] of [rest]. *)
Lemma slice_four rest i :
  JsArray.slice i (i + 4) rest = take 4 (drop i rest).
Proof. unfold JsArray.slice. f_equal. lia. Qed.

Lemma turns_done n i : (n <= i)%nat -> turns n i = 0%nat.
Proof. intros Hle. unfold turns. replace (n - i)%nat with 0%nat by lia. reflexivity. Qed.

Lemma turns_step n i : (i < n)%nat -> turns n i = S (turns n (i + 4)).
Proof. intros Hlt. unfold turns. lia. Qed.

(** The loop pushes, after the groups it was given, the groups of four
    that start at [i], [i + 4], [i + 8], ... *)
Lemma groupsLoop_spec rest i acc :
  groupsLoop rest i acc =
  (acc ++ ((fun k => take 4 (drop (i + 4 * k) rest)) <$> seq 0 (turns (length rest) i)))%list.
Proof.
  funelim (groupsLoop rest i acc).
  - match goal with IH : _ = (_ ++ _)%list |- _ => rewrite IH end.
    rewrite (turns_step (length rest) i) by assumption.
    rewrite <- app_assoc. f_equal. simpl. f_equal.
    + rewrite slice_four. do 2 f_equal. lia.
    + rewrite <- fmap_S_seq, <- list_fmap_compose. apply list_fmap_ext.
      intros _ k _. simpl. do 2 f_equal. lia.
  - rewrite turns_done by lia. simpl. by rewrite app_nil_r.
Qed.

Lemma concat_groups_from rest n i :
  concat ((fun k => take 4 (drop (i + 4 * k) rest)) <$> seq 0 n)
  = take (4 * n) (drop i rest).
Proof.
  revert i. induction n as [|n IH]; intros i; [reflexivity|].
  cbn [seq]. rewrite fmap_cons. cbn [concat].
  rewrite <- fmap_S_seq, <- list_fmap_compose.
  rewrite (list_fmap_ext _ (fun k => take 4 (drop ((i + 4) + 4 * k) rest)) (seq 0 n))
    by (intros _ k _; simpl; do 2 f_equal; lia).
  rewrite IH. replace (i + 4 * 0)%nat with i by lia.
  replace (4 * S n)%nat with (4 + 4 * n)%nat by lia.
  rewrite <- take_take_drop, drop_drop. reflexivity.
Qed.

Lemma groups_concat arr : concat (groups (paginatePhotos arr)) = drop 2 arr.
Proof.
  unfold paginatePhotos. cbn [groups]. rewrite groupsLoop_spec. cbn [app].
  rewrite concat_groups_from. apply take_ge.
  rewrite !length_drop. unfold turns. lia.
Qed.

Lemma groups_lookup arr k g :
  groups (paginatePhotos arr) !! k = Some g ->
  g = take 4 (drop (2 + 4 * k) arr) /\ (2 + 4 * k < length arr)%nat.
Proof.
  unfold paginatePhotos. cbn [groups]. rewrite groupsLoop_spec. cbn [app].
  rewrite list_lookup_fmap. intros Hk.
  destruct (seq 0 _ !! k) as [j|] eqn:Hj; [|discriminate].
  apply lookup_seq in Hj as [-> Hlt]. injection Hk as <-.
  rewrite length_drop in Hlt. unfold turns in Hlt.
  rewrite drop_drop. split; [do 2 f_equal; lia | lia].
Qed.

Lemma groups_length arr :
  length (groups (paginatePhotos arr)) = ((length arr - 2 + 3) / 4)%nat.
Proof.
  unfold paginatePhotos. cbn [groups]. rewrite groupsLoop_spec. cbn [app].
  rewrite length_fmap, length_seq, length_drop. unfold turns. f_equal. lia.
Qed.

End PaginateFacts.

Example paginate_ten :
  paginatePhotos (seq 0 10)
  = {| firstTwo := [0; 1]%nat; groups := [[2; 3; 4; 5]; [6; 7; 8; 9]]%nat |}.
Proof. reflexivity. Qed.

Example paginate_seven :
  paginatePhotos (seq 0 7) = {| firstTwo := [0; 1]%nat; groups := [[2; 3; 4; 5]; [6]]%nat |}.
Proof. reflexivity. Qed.

Example paginate_one : paginatePhotos [7%nat] = {| firstTwo := [7%nat]; groups := [] |}.
Proof. reflexivity. Qed.

(** C3. [paginatePhotos] is a total function; [firstTwo] is the first two
    photos in order (all of them when there are fewer); the groups cut the
    photos from index 2 on into consecutive runs of four in order: group
    [k] holds the photos at indexes [2 + 4k .. 2 + 4k + 3], every group has
    between one and four photos, only the last one may have fewer than
    four, and nothing but the photos from index 2 on is in the groups; the
    empty list gives no first page and no group. *)
Theorem C3_paginate_shape {A} (arr : list A) :
  firstTwo (paginatePhotos arr) = take 2 arr
  /\ length (firstTwo (paginatePhotos arr)) = (length arr `min` 2)%nat
  /\ groups (paginatePhotos arr)
     = (fun k => take 4 (drop (2 + 4 * k) arr)) <$> seq 0 ((length arr - 2 + 3) / 4)
  /\ concat (groups (paginatePhotos arr)) = drop 2 arr
  /\ Forall (fun g => (1 <= length g <= 4)%nat) (groups (paginatePhotos arr))
  /\ (forall k g, groups (paginatePhotos arr) !! k = Some g ->
        (S k < length (groups (paginatePhotos arr)))%nat -> length g = 4%nat)
  /\ paginatePhotos (@nil A) = {| firstTwo := []; groups := [] |}.
Proof.
  assert (Hfirst : firstTwo (paginatePhotos arr) = take 2 arr).
  { unfold paginatePhotos, JsArray.slice. cbn [firstTwo]. by rewrite drop_0. }
  split; [exact Hfirst|]. split; [rewrite Hfirst, length_take; lia|].
  split; [|split; [|split; [|split]]].
  - apply list_eq. intros k. rewrite list_lookup_fmap.
    destruct (groups (paginatePhotos arr) !! k) as [g|] eqn:Hg.
    + apply groups_lookup in Hg as Hg'. destruct Hg' as [-> Hlt].
      rewrite lookup_seq_lt by lia. reflexivity.
    + apply lookup_ge_None in Hg. rewrite groups_length in Hg.
      by rewrite lookup_seq_ge.
  - apply groups_concat.
  - apply Forall_lookup. intros k g Hg. apply groups_lookup in Hg as [-> Hlt].
    rewrite length_take, length_drop. lia.
  - intros k g Hg Hk. rewrite groups_length in Hk.
    apply groups_lookup in Hg as [-> Hlt].
    rewrite length_take, length_drop. lia.
  - reflexivity.
Qed.

(** C4. The first page followed by all the groups, flattened in order, is
    the list that was paginated. *)
Theorem C4_paginate_round_trip {A} (arr : list A) :
  (firstTwo (paginatePhotos arr) ++ concat (groups (paginatePhotos arr)))%list = arr.
Proof.
  rewrite groups_concat. unfold paginatePhotos, JsArray.slice. cbn [firstTwo].
  rewrite drop_0. apply take_drop.
Qed.

(** ** The photo reorder *)

Section MovePhotoFacts.

Context {A : Type}.
Implicit Types (l : list A).

Lemma get_defined l (i : nat) : JsArray.get (Some <$> l) (Z.of_nat i) = l !! i.
Proof.
  unfold JsArray.get. destruct (Z.ltb_spec (Z.of_nat i) 0) as [?|_]; [lia|].
  rewrite Nat2Z.id, list_lookup_fmap. by destruct (l !! i).
Qed.

Lemma set_defined l (i : nat) x :
  (i < length l)%nat ->
  JsArray.set (Some <$> l) (Z.of_nat i) (Some x) = Some <$> <[i := x]> l.
Proof.
  intros Hi. unfold JsArray.set.
  destruct (Z.ltb_spec (Z.of_nat i) 0) as [?|_]; [lia|].
  rewrite length_fmap.
  destruct (Z.ltb_spec (Z.of_nat i) (Z.of_nat (length l))) as [_|?]; [|lia].
  by rewrite Nat2Z.id, list_fmap_insert.
Qed.

(** The target index is outside the array: nothing moves. *)
Lemma movePhoto_out idx dir (prev : list (option A)) :
  idx + dir < 0 \/ Z.of_nat (length prev) <= idx + dir ->
  movePhoto idx dir prev = prev.
Proof.
  intros Hout. unfold movePhoto.
  destruct (Z.ltb_spec (idx + dir) 0) as [?|?]; [reflexivity|].
  destruct (Z.geb_spec (idx + dir) (Z.of_nat (length prev))) as [?|?]; [reflexivity|lia].
Qed.

(** Both indexes are inside the array: the two cells trade places. *)
Lemma movePhoto_in l (i t : nat) a b :
  l !! i = Some a -> l !! t = Some b ->
  movePhoto (Z.of_nat i) (Z.of_nat t - Z.of_nat i) (Some <$> l)
  = Some <$> <[t := a]> (<[i := b]> l).
Proof.
  intros Hi Ht. unfold movePhoto.
  apply lookup_lt_Some in Hi as Hi'. apply lookup_lt_Some in Ht as Ht'.
  replace (Z.of_nat i + (Z.of_nat t - Z.of_nat i)) with (Z.of_nat t) by lia.
  rewrite length_fmap.
  destruct (Z.ltb_spec (Z.of_nat t) 0) as [?|_]; [lia|].
  destruct (Z.geb_spec (Z.of_nat t) (Z.of_nat (length l))) as [?|_]; [lia|].
  cbn [orb]. rewrite !get_defined, Hi, Ht.
  rewrite set_defined by assumption.
  rewrite set_defined by (by rewrite length_insert).
  reflexivity.
Qed.

End MovePhotoFacts.

Example move_down :
  movePhoto 0 1 [Some 1; Some 2; Some 3]%nat = [Some 2; Some 1; Some 3]%nat.
Proof. reflexivity. Qed.

Example move_first_up :
  movePhoto 0 (-1) [Some 1; Some 2; Some 3]%nat = [Some 1; Some 2; Some 3]%nat.
Proof. reflexivity. Qed.

(** An index that is not one of the array leaves a hole behind. *)
Example move_from_past_the_end :
  movePhoto 3 (-1) [Some 1; Some 2; Some 3]%nat = [Some 1; Some 2; None; Some 3]%nat.
Proof. reflexivity. Qed.

(** C10. For a list of photos, an index [i] of the list and a direction
    [dir] of [-1] or [1]: when [i + dir] is outside the list, [movePhoto]
    returns the list as it is; otherwise it returns the list in which the
    photos at [i] and [i + dir] have traded places and every other
    position holds the photo it held, each photo moving as one record of
    identifier, image and caption. *)
Theorem C10_movePhoto_swaps (l : list Photo) (i : nat) (dir : Z) :
  (i < length l)%nat ->
  dir = -1 \/ dir = 1 ->
  (Z.of_nat i + dir < 0 \/ Z.of_nat (length l) <= Z.of_nat i + dir ->
     movePhoto (Z.of_nat i) dir (Some <$> l) = Some <$> l)
  /\ (0 <= Z.of_nat i + dir < Z.of_nat (length l) ->
       exists l' : list Photo,
         movePhoto (Z.of_nat i) dir (Some <$> l) = Some <$> l'
         /\ length l' = length l
         /\ l' !! i = l !! Z.to_nat (Z.of_nat i + dir)
         /\ l' !! Z.to_nat (Z.of_nat i + dir) = l !! i
         /\ (forall j, j <> i -> j <> Z.to_nat (Z.of_nat i + dir) -> l' !! j = l !! j)).
Proof.
  intros Hi Hdir. split.
  - intros Hout. apply movePhoto_out. by rewrite length_fmap.
  - intros Hin. set (t := Z.to_nat (Z.of_nat i + dir)).
    assert (Ht : (t < length l)%nat) by lia.
    assert (Hne : i <> t) by lia.
    destruct (lookup_lt_is_Some_2 l i Hi) as [a Ha].
    destruct (lookup_lt_is_Some_2 l t Ht) as [b Hb].
    exists (<[t := a]> (<[i := b]> l)).
    replace dir with (Z.of_nat t - Z.of_nat i) by lia.
    split; [by apply movePhoto_in|].
    split; [by rewrite !length_insert|].
    split; [by rewrite list_lookup_insert_ne, list_lookup_insert_eq by lia|].
    split; [by rewrite list_lookup_insert_eq by (rewrite length_insert; lia)|].
    intros j Hji Hjt. by rewrite !list_lookup_insert_ne by done.
Qed.

Lemma C10_movePhoto_swaps_witness :
  exists l' : list Photo,
    movePhoto 0 1 [Some Demo.bow; Some Demo.stern] = Some <$> l'
    /\ l' !! 0%nat = Some Demo.stern /\ l' !! 1%nat = Some Demo.bow.
Proof.
  destruct (C10_movePhoto_swaps [Demo.bow; Demo.stern] 0 1) as [_ Hin];
    [simpl; lia | by right |].
  destruct Hin as (l' & Hmove & _ & H0 & H1 & _); [simpl; lia|].
  exists l'. split; [exact Hmove|]. split; [exact H0 | exact H1].
Defined.

(** ** Merging a loaded form *)

Lemma isReportForm_hasRecommendations f : isReportForm f -> hasRecommendations f.
Proof.
  intros [Hstr _]. destruct (Hstr "recommendations") as [v Hv].
  - apply list_elem_of_In. simpl. do 13 right. by left.
  - exists (JStr v). by split.
Qed.

Lemma initialForm_isReportForm : isReportForm initialForm.
Proof.
  split.
  - intros k Hk. unfold stringFields in Hk.
    repeat (apply elem_of_cons in Hk as [->|Hk]; [eexists; reflexivity|]).
    by apply elem_of_nil in Hk.
  - by exists ["Troubleshooting"].
Qed.

Lemma mergeLoaded_other prev loaded k :
  k <> "recommendations" ->
  mergeLoaded prev (JObj loaded) !! k = (loaded ∪ prev) !! k.
Proof. intros Hk. unfold mergeLoaded. by rewrite lookup_insert_ne. Qed.

Lemma mergeLoaded_recommendations prev loaded :
  mergeLoaded prev loaded !! "recommendations"
  = Some (Js.coalesce (Js.member loaded "recommendations")
            (Js.coalesce (prev !! "recommendations") (JStr ""))).
Proof. unfold mergeLoaded. by rewrite lookup_insert_eq. Qed.

(** C5. For a form [current] that has its field [recommendations] (every
    form of the component has): a field that the loaded object lacks keeps
    the value it has in [current], so a field of [current] is never lost;
    and merging the empty object gives [current] back. *)
Theorem C5_mergeLoaded_keeps_absent_fields (current loaded : gmap string json) :
  hasRecommendations current ->
  (forall k, loaded !! k = None ->
     mergeLoaded current (JObj loaded) !! k = current !! k)
  /\ (forall k, is_Some (current !! k) ->
        is_Some (mergeLoaded current (JObj loaded) !! k))
  /\ mergeLoaded current (JObj ∅) = current.
Proof.
  intros (v & Hv & Hnull).
  assert (Habsent : forall l k, l !! k = None ->
            mergeLoaded current (JObj l) !! k = current !! k).
  { intros l k Hk. destruct (decide (k = "recommendations")) as [->|Hne].
    - rewrite mergeLoaded_recommendations. cbn [Js.member]. rewrite Hk, Hv.
      cbn [Js.coalesce]. by destruct v.
    - rewrite mergeLoaded_other by done. by rewrite lookup_union_r. }
  split; [exact (Habsent loaded)|]. split.
  - intros k Hsome. destruct (decide (k = "recommendations")) as [->|Hne].
    + rewrite mergeLoaded_recommendations. eauto.
    + rewrite mergeLoaded_other by done.
      destruct (loaded !! k) as [x|] eqn:Hk.
      * erewrite lookup_union_Some_l by eassumption. eauto.
      * by rewrite lookup_union_r.
  - apply map_eq. intros k. apply Habsent, lookup_empty.
Qed.

Lemma C5_mergeLoaded_keeps_absent_fields_witness :
  mergeLoaded initialForm (JObj {[ "vessel" := JStr "Sea Wolf" ]}) !! "customer"
    = Some (JStr "")
  /\ mergeLoaded initialForm (JObj ∅) = initialForm.
Proof.
  destruct (C5_mergeLoaded_keeps_absent_fields initialForm {[ "vessel" := JStr "Sea Wolf" ]})
    as (Habsent & _ & Hid).
  - exists (JStr ""). split; [reflexivity | discriminate].
  - split; [|exact Hid]. rewrite Habsent; reflexivity.
Defined.

(** ** The JSON text is read back *)

Module JsonTextFacts.

Import JsonText.
#[local] Open Scope list_scope.

(** *** Strings *)

Lemma readString_escape c rest :
  readString (escape c ++ rest) =
  match readString rest with
  | Some (t, r) => Some (c :: t, r)
  | None => None
  end.
Proof. destruct c as [[] [] [] [] [] [] [] []]; reflexivity. Qed.

Lemma readString_quoted cs rest :
  readString (concat (escape <$> cs) ++ "034"%char :: rest) = Some (cs, rest).
Proof.
  induction cs as [|c cs IH]; [reflexivity|].
  rewrite fmap_cons. cbn [concat]. rewrite <- app_assoc, readString_escape.
  by rewrite IH.
Qed.

Lemma quote_cons s rest :
  quote s ++ rest = "034"%char :: concat (escape <$> chars s) ++ "034"%char :: rest.
Proof. unfold quote. cbn [app]. by rewrite <- app_assoc. Qed.

(** *** Numbers *)

Lemma pretty_N_char_digit d :
  (d < 10)%N ->
  isDigit (pretty_N_char d) = true
  /\ Z.of_nat (code (pretty_N_char d)) - 48 = Z.of_N d
  /\ (d <> 0%N -> code (pretty_N_char d) <> 48%nat).
Proof.
  intros Hd.
  assert (Hcases : d ∈ [0; 1; 2; 3; 4; 5; 6; 7; 8; 9]%N).
  { apply list_elem_of_In. simpl. lia. }
  repeat (apply elem_of_cons in Hcases as [->|Hcases]; [by repeat split|]).
  by apply elem_of_nil in Hcases.
Qed.

(** The digits that [pretty_N_go] puts before [s], as [readDigits] reads
    them. *)
Lemma pretty_N_go_digits x :
  forall s, exists ds p,
    chars (pretty_N_go x s) = ds ++ chars s
    /\ (forall acc rest,
          readDigits acc (ds ++ rest) = readDigits (acc * p + Z.of_N x) rest)
    /\ ((0 < x)%N -> exists c ds', ds = c :: ds' /\ isDigit c = true /\ code c <> 48%nat).
Proof.
  induction (N.lt_wf_0 x) as [x _ IH]. intros s.
  destruct (decide (x = 0)%N) as [->|Hx].
  - exists [], 1. rewrite pretty_N_go_0. repeat split.
    + intros acc rest. cbn [app]. f_equal. lia.
    + lia.
  - rewrite pretty_N_go_step by lia.
    destruct (pretty_N_char_digit (x `mod` 10)) as (Hdig & Hval & Hnz);
      [apply N.mod_lt; lia|].
    destruct (IH (x `div` 10)%N) with (s := String (pretty_N_char (x `mod` 10)) s)
      as (ds1 & p1 & Hchars & Hread & Hhead); [apply N.div_lt; lia|].
    exists (ds1 ++ [pretty_N_char (x `mod` 10)]), (p1 * 10).
    split; [|split].
    + rewrite Hchars. cbn [chars]. by rewrite <- app_assoc.
    + intros acc rest. rewrite <- app_assoc. cbn [app]. rewrite Hread.
      cbn [readDigits]. rewrite Hdig, Hval. f_equal.
      rewrite (N.div_mod x 10) at 3 by lia. lia.
    + intros _. destruct (decide (x `div` 10 = 0)%N) as [Hsmall|Hbig].
      * assert (ds1 = []) as ->.
        { rewrite Hsmall, pretty_N_go_0 in Hchars. cbn [chars] in Hchars.
          apply (f_equal length) in Hchars. rewrite length_app in Hchars.
          cbn [length] in Hchars. destruct ds1; [done|cbn in Hchars; lia]. }
        eexists _, []. split; [reflexivity|]. split; [done|].
        apply Hnz. intros Hmod. pose proof (N.div_mod x 10). lia.
      * destruct Hhead as (c & ds' & -> & Hc); [lia|].
        by exists c, (ds' ++ [pretty_N_char (x `mod` 10)]).
Qed.

Lemma readDigits_end acc rest : numEnd rest = true -> readDigits acc rest = (acc, rest).
Proof.
  destruct rest as [|d rest]; [done|]. cbn. destruct (isDigit d); [done|]. done.
Qed.

Lemma readNat_pretty (p : positive) rest :
  numEnd rest = true ->
  exists c r, chars (pretty (N.pos p)) ++ rest = c :: r
    /\ isDigit c = true
    /\ readNat (c :: r) = Some (Z.pos p, rest).
Proof.
  intros Hend. unfold pretty, pretty_N. destruct (decide _) as [|_]; [done|].
  destruct (pretty_N_go_digits (N.pos p) "") as (ds & q & Hchars & Hread & Hhead).
  destruct Hhead as (c & ds' & -> & Hc & Hc0); [lia|].
  rewrite Hchars. cbn [chars]. rewrite app_nil_r. exists c, (ds' ++ rest).
  split; [done|]. split; [done|].
  unfold readNat. rewrite Hc. apply Nat.eqb_neq in Hc0. rewrite Hc0.
  change (c :: ds' ++ rest) with ((c :: ds') ++ rest).
  rewrite Hread, readDigits_end by done. by rewrite Hend.
Qed.

Lemma readNumber_pretty z rest :
  numEnd rest = true ->
  exists c r, chars (pretty z) ++ rest = c :: r
    /\ (isDigit c = true \/ code c = 45%nat)
    /\ readNumber (c :: r) = Some (z, rest).
Proof.
  intros Hend. destruct z as [|p|p].
  - exists "0"%char, rest. repeat split; [by left|].
    change (readNumber ("0"%char :: rest)) with (if numEnd rest then Some (0, rest) else None).
    by rewrite Hend.
  - destruct (readNat_pretty p rest Hend) as (c & r & Heq & Hc & Hread).
    exists c, r. split; [done|]. split; [by left|].
    unfold readNumber. destruct (Nat.eqb_spec (code c) 45) as [H45|_]; [|done].
    unfold isDigit in Hc. rewrite H45 in Hc. done.
  - destruct (readNat_pretty p rest Hend) as (c & r & Heq & Hc & Hread).
    exists "-"%char, (c :: r). split; [|split; [by right|]].
    + change (pretty (Z.neg p)) with ("-" +:+ pretty (N.pos p)).
      cbn [chars String.append app]. by rewrite <- Heq.
    + change (readNumber ("-"%char :: c :: r))
        with (match readNat (c :: r) with Some (n, r') => Some (- n, r') | None => None end).
      by rewrite Hread.
Qed.

(** *** Values *)

Lemma write_JObj m :
  write (JObj m) = "{"%char :: commaSep (member <$> map_to_list m) ++ ["}"%char].
Proof.
  cbn [write]. rewrite map_fold_foldr. do 3 f_equal.
  induction (map_to_list m) as [|[k x] l IH]; [done|]. cbn. f_equal. exact IH.
Qed.

Lemma size_JArr l : size (JArr l) = S (weight (fun x => x) l).
Proof. reflexivity. Qed.

Lemma size_JObj m : size (JObj m) = S (weight snd (map_to_list m)).
Proof.
  cbn [size]. rewrite map_fold_foldr. f_equal. unfold weight.
  induction (map_to_list m) as [|[k x] l IH]; [done|]. cbn. do 2 f_equal. exact IH.
Qed.

Lemma weight_cons {A} (f : A -> json) x l :
  weight f (x :: l) = (S (size (f x)) + weight f l)%nat.
Proof. reflexivity. Qed.

Lemma weight_elem {A} (f : A -> json) l x : x ∈ l -> (size (f x) < weight f l)%nat.
Proof.
  induction l as [|y l IH]; intros Hin; [by apply elem_of_nil in Hin|].
  rewrite weight_cons. apply elem_of_cons in Hin as [->|Hin]; [lia|].
  specialize (IH Hin). lia.
Qed.

Lemma json_size_ind (P : json -> Prop) :
  (forall v, (forall w, (size w < size v)%nat -> P w) -> P v) -> forall v, P v.
Proof.
  intros Hstep v. remember (size v) as n eqn:Hn. revert v Hn.
  induction (lt_wf n) as [n _ IH]. intros v ->. apply Hstep.
  intros w Hw. by apply (IH (size w)).
Qed.

Lemma size_pos v : (1 <= size v)%nat.
Proof. destruct v; cbn; lia. Qed.

(** A number starts with a character that starts nothing else. *)
Lemma number_head c :
  isDigit c = true \/ code c = 45%nat ->
  isWs c = false
  /\ (code c =? 34)%nat = false /\ (code c =? 91)%nat = false
  /\ (code c =? 123)%nat = false /\ (code c =? 110)%nat = false
  /\ (code c =? 116)%nat = false /\ (code c =? 102)%nat = false
  /\ (code c =? 93)%nat = false /\ (code c =? 125)%nat = false.
Proof.
  unfold isWs, isDigit. intros [Hc|Hc].
  - apply andb_true_iff in Hc as [Hlo Hhi].
    apply Nat.leb_le in Hlo, Hhi.
    rewrite !orb_false_iff, !Nat.eqb_neq. lia.
  - by rewrite Hc.
Qed.

(** A written value starts with a character that is no blank and closes
    no array or object. *)
Lemma write_head v :
  exists c r, write v = c :: r
    /\ isWs c = false /\ (code c =? 93)%nat = false /\ (code c =? 125)%nat = false.
Proof.
  destruct v as [|[]|z|s|l|m].
  - by eexists _, _.
  - by eexists _, _.
  - by eexists _, _.
  - destruct (readNumber_pretty z [] eq_refl) as (c & r & Heq & Hc & _).
    rewrite app_nil_r in Heq. exists c, r. split; [done|].
    by destruct (number_head c Hc) as (? & _ & _ & _ & _ & _ & _ & ? & ?).
  - by eexists _, _.
  - by eexists _, _.
  - rewrite write_JObj. by eexists _, _.
Qed.

Lemma skipWs_head c r : isWs c = false -> skipWs (c :: r) = c :: r.
Proof. intros Hc. cbn. by rewrite Hc. Qed.

Lemma commaSep_cons p ps rest :
  commaSep (p :: ps) ++ rest =
  p ++ match ps with [] => rest | _ => ","%char :: commaSep ps ++ rest end.
Proof. destruct ps; [done|]. cbn [commaSep]. by rewrite <- app_assoc. Qed.

Lemma toObject_list_to_map (l : list (string * json)) :
  toObject l = list_to_map (reverse l).
Proof.
  induction l as [|kv l IH] using rev_ind; [done|].
  unfold toObject in *. by rewrite foldl_app, reverse_snoc, IH.
Qed.

(** The members of an object, read back in any order, make the object. *)
Lemma toObject_map_to_list (m : gmap string json) : toObject (map_to_list m) = m.
Proof.
  rewrite toObject_list_to_map. rewrite <- (list_to_map_to_list m) at 2.
  symmetry. apply list_to_map_proper; [apply NoDup_fst_map_to_list|].
  symmetry. apply reverse_Permutation.
Qed.

Lemma readElements_write l :
  l <> [] -> Forall readsBack l ->
  forall n rest, (weight (fun x => x) l <= n)%nat ->
    readElements n (commaSep (write <$> l) ++ "]"%char :: rest) = Some (l, rest).
Proof.
  induction l as [|x l IH]; [done|]. intros _ Hall n rest Hn.
  apply Forall_cons in Hall as [Hx Hall]. rewrite weight_cons in Hn.
  destruct n as [|n]; [lia|]. rewrite fmap_cons, commaSep_cons.
  destruct l as [|y l].
  - cbn [fmap list_fmap]. cbn [readElements].
    rewrite Hx by (done || lia). by cbn.
  - cbn [readElements]. rewrite fmap_cons.
    rewrite Hx by (done || lia).
    rewrite skipWs_head by done.
    change (code "," =? 44)%nat with true. cbv iota.
    rewrite <- fmap_cons.
    rewrite IH by (done || lia). done.
Qed.

Lemma member_app k x rest :
  member (k, x) ++ rest =
  "034"%char :: concat (escape <$> chars k) ++ "034"%char :: ":"%char :: write x ++ rest.
Proof.
  unfold member. cbn [fst snd]. rewrite <- app_assoc, quote_cons. reflexivity.
Qed.

Lemma readMembers_write (kvs : list (string * json)) :
  kvs <> [] -> Forall (fun kv => readsBack kv.2) kvs ->
  forall n rest, (weight snd kvs <= n)%nat ->
    readMembers n (commaSep (member <$> kvs) ++ "}"%char :: rest) = Some (kvs, rest).
Proof.
  induction kvs as [|[k x] kvs IH]; [done|]. intros _ Hall n rest Hn.
  apply Forall_cons in Hall as [Hx Hall]. rewrite weight_cons in Hn.
  cbn [snd] in Hx, Hn.
  destruct n as [|n]; [lia|]. rewrite fmap_cons, commaSep_cons, member_app.
  cbn [readMembers]. rewrite skipWs_head by done.
  change (code "034" =? 34)%nat with true. cbv iota.
  rewrite readString_quoted. rewrite skipWs_head by done.
  change (code ":" =? 58)%nat with true. cbv iota.
  destruct kvs as [|kv kvs].
  - cbn [fmap list_fmap]. rewrite Hx by (done || lia).
    cbn. by rewrite String.string_of_list_ascii_of_string.
  - rewrite fmap_cons. rewrite Hx by (done || lia). rewrite skipWs_head by done.
    change (code "," =? 44)%nat with true. cbv iota. rewrite <- fmap_cons.
    rewrite IH by (done || lia).
    by rewrite String.string_of_list_ascii_of_string.
Qed.

Lemma commaSep_head (ps : list (list ascii)) p c r rest :
  p = c :: r -> exists r', commaSep (p :: ps) ++ rest = c :: r'.
Proof. intros ->. rewrite commaSep_cons. by eexists. Qed.

Lemma readValue_write v : readsBack v.
Proof.
  induction v as [v IH] using json_size_ind. intros n rest Hn Hend.
  destruct n as [|n]; [pose proof (size_pos v); lia|].
  destruct v as [|[]|z|s|l|m].
  - reflexivity.
  - reflexivity.
  - reflexivity.
  - destruct (readNumber_pretty z rest Hend) as (c & r & Heq & Hc & Hread).
    cbn [write]. rewrite Heq. cbn [readValue].
    destruct (number_head c Hc) as (Hws & H34 & H91 & H123 & H110 & H116 & H102 & _).
    rewrite skipWs_head by done.
    by rewrite H34, H91, H123, H110, H116, H102, Hread.
  - cbn [write]. rewrite quote_cons. cbn [readValue].
    rewrite skipWs_head by done.
    change (code "034" =? 34)%nat with true. cbv iota.
    rewrite readString_quoted. by rewrite String.string_of_list_ascii_of_string.
  - cbn [write]. rewrite <- app_comm_cons, <- app_assoc. cbn [app readValue].
    rewrite skipWs_head by done.
    change (code "[" =? 34)%nat with false. change (code "[" =? 91)%nat with true.
    cbv iota. destruct l as [|x l]; [reflexivity|].
    rewrite size_JArr in Hn.
    assert (Hall : Forall readsBack (x :: l)).
    { apply Forall_forall. intros w Hw. apply IH. rewrite size_JArr.
      pose proof (weight_elem (fun x => x) _ _ Hw). lia. }
    destruct (write_head x) as (c & r & Hx & Hws & Hc93 & _).
    destruct (commaSep_head (write <$> l) _ c r ("]"%char :: rest) Hx) as [r' Hhead].
    rewrite fmap_cons, Hhead, skipWs_head by done.
    rewrite Hc93. rewrite <- Hhead, <- fmap_cons.
    rewrite readElements_write by (done || lia). done.
  - rewrite write_JObj. rewrite <- app_comm_cons, <- app_assoc. cbn [app readValue].
    rewrite skipWs_head by done.
    change (code "{" =? 34)%nat with false. change (code "{" =? 91)%nat with false.
    change (code "{" =? 123)%nat with true. cbv iota.
    rewrite size_JObj in Hn.
    destruct (map_to_list m) as [|[k x] kvs] eqn:Hkvs.
    + apply map_to_list_empty_iff in Hkvs as ->. reflexivity.
    + assert (Hall : Forall (fun kv => readsBack kv.2) ((k, x) :: kvs)).
      { apply Forall_forall. intros w Hw. apply IH. rewrite size_JObj, Hkvs.
        pose proof (weight_elem snd _ _ Hw). lia. }
      assert (Hhead : exists r', commaSep (member <$> (k, x) :: kvs) ++ "}"%char :: rest
                                 = "034"%char :: r').
      { rewrite fmap_cons, commaSep_cons, member_app. by eexists. }
      destruct Hhead as [r' Hhead]. rewrite Hhead, skipWs_head by done.
      change (code "034" =? 125)%nat with false. cbv iota. rewrite <- Hhead.
      rewrite readMembers_write by (done || lia).
      do 3 f_equal. rewrite <- Hkvs. apply toObject_map_to_list.
Qed.

(** A value is not larger than its text. *)
Lemma weight_commaSep {A} (f : A -> json) (g : A -> list ascii) l :
  Forall (fun x => size (f x) <= length (g x))%nat l ->
  (weight f l <= S (length (commaSep (g <$> l))))%nat.
Proof.
  induction l as [|x l IH]; intros Hall; [cbn; lia|].
  apply Forall_cons in Hall as [Hx Hall]. specialize (IH Hall).
  rewrite weight_cons, fmap_cons.
  destruct l as [|y l]; [cbn in *; lia|].
  rewrite fmap_cons in IH |- *.
  change (commaSep (g x :: g y :: (g <$> l)))
    with (g x ++ ","%char :: commaSep (g y :: (g <$> l))).
  rewrite length_app. cbn [length]. lia.
Qed.

Lemma size_le_length v : (size v <= length (write v))%nat.
Proof.
  induction v as [v IH] using json_size_ind.
  destruct v as [|[]|z|s|l|m]; try (cbn; lia).
  - destruct (readNumber_pretty z [] eq_refl) as (c & r & Heq & _).
    rewrite app_nil_r in Heq. cbn [write size]. rewrite Heq. cbn. lia.
  - rewrite size_JArr. cbn [write length]. rewrite length_app. cbn [length].
    pose proof (weight_commaSep (fun x => x) write l) as Hw. cbn in Hw |- *.
    enough (weight (fun x => x) l <= S (length (commaSep (write <$> l))))%nat by lia.
    apply Hw, Forall_forall. intros x Hx. apply IH. rewrite size_JArr.
    pose proof (weight_elem (fun x => x) _ _ Hx). lia.
  - rewrite size_JObj, write_JObj. cbn [length]. rewrite length_app. cbn [length].
    enough (weight snd (map_to_list m) <= S (length (commaSep (member <$> map_to_list m))))%nat
      by lia.
    apply weight_commaSep, Forall_forall. intros [k x] Hx.
    unfold member. cbn [fst snd]. rewrite length_app. cbn [length].
    specialize (IH x). rewrite size_JObj in IH.
    pose proof (weight_elem snd _ _ Hx). cbn [snd] in *.
    assert (size x <= length (write x))%nat by (apply IH; lia). lia.
Qed.

(** What [JSON.stringify] writes, [JSON.parse] reads back. *)
Lemma parse_stringify v : parse (stringify v) = Some v.
Proof.
  unfold parse, stringify. rewrite String.list_ascii_of_string_of_list_ascii.
  rewrite <- (app_nil_r (write v)) at 2.
  rewrite readValue_write; [done| |done].
  pose proof (size_le_length v). lia.
Qed.

Lemma parse_empty : parse "" = None.
Proof. reflexivity. Qed.


End JsonTextFacts.

Example parse_blanks :
  JsonText.parse " [1, -20 ,[ ] , null,true ] "
  = Some (JArr [JNum 1; JNum (-20); JArr []; JNull; JBool true]).
Proof. reflexivity. Qed.

Example parse_broken : JsonText.parse "{broken" = None.
Proof. reflexivity. Qed.

Example parse_leading_zero : JsonText.parse "01" = None.
Proof. reflexivity. Qed.

Example parse_after_value : JsonText.parse "1 2" = None.
Proof. reflexivity. Qed.

#[global] Instance textCodec : JsonCodec := {|
  JSON_stringify := JsonText.stringify;
  JSON_parse := JsonText.parse;
  JSON_parse_stringify := JsonTextFacts.parse_stringify;
  JSON_parse_empty := JsonTextFacts.parse_empty |}.

(** ** The store *)

Module StorageFacts.

Import Storage.

Lemma assocGet_assocSet_eq k v l : assocGet k (assocSet k v l) = Some v.
Proof.
  induction l as [|[k' v'] l IH]; simpl.
  - by rewrite String.eqb_refl.
  - destruct (String.eqb_spec k k') as [->|Hne]; simpl.
    + by rewrite String.eqb_refl.
    + by destruct (String.eqb_spec k k').
Qed.

Lemma assocGet_assocSet_ne k k' v l :
  k <> k' -> assocGet k' (assocSet k v l) = assocGet k' l.
Proof.
  intros Hne. induction l as [|[k0 v0] l IH]; simpl.
  - destruct (String.eqb_spec k' k); congruence.
  - destruct (String.eqb_spec k k0) as [->|Hk]; simpl.
    + destruct (String.eqb_spec k' k0); congruence.
    + by rewrite IH.
Qed.

(** What was written is what is read. *)
Lemma getItem_setItem_eq st k v st' :
  setItem st k v = Some st' -> getItem st' k = Some v.
Proof.
  unfold setItem, getItem. destruct (_ <=? _)%nat; [|discriminate].
  intros [= <-]. apply assocGet_assocSet_eq.
Qed.

Lemma getItem_setItem_ne st k k' v st' :
  k <> k' -> setItem st k v = Some st' -> getItem st' k' = getItem st k'.
Proof.
  unfold setItem, getItem. intros Hne. destruct (_ <=? _)%nat; [|discriminate].
  intros [= <-]. by apply assocGet_assocSet_ne.
Qed.

(** [setItem] fails exactly when the entries would outgrow the quota. *)
Lemma setItem_None st k v :
  setItem st k v = None <-> (quota st < used (assocSet k v (items st)))%nat.
Proof.
  unfold setItem. destruct (Nat.leb_spec (used (assocSet k v (items st))) (quota st));
    split; (discriminate || lia || done).
Qed.

End StorageFacts.

(** ** Saving and loading *)

Section AppFacts.

Context `{JsonCodec}.
Variables (tz : Z) (today : string).

Lemma stringify_not_empty v : JSON_stringify v <> "".
Proof.
  intros Hempty. pose proof (JSON_parse_stringify v) as Hrt.
  rewrite Hempty, JSON_parse_empty in Hrt. discriminate.
Qed.

Lemma saved_is_not_saveFailed k : Msg.saved k <> Msg.saveFailed.
Proof. unfold Msg.saved, Msg.saveFailed. cbn. discriminate. Qed.

Lemma record_form s : Js.member (record s) "form" = Some (JObj (form s)).
Proof. unfold record. cbn [Js.member]. by rewrite lookup_insert_eq. Qed.

Lemma record_photos s : Js.member (record s) "photos" = Some (photos s).
Proof.
  unfold record. cbn [Js.member].
  rewrite lookup_insert_ne by done. by rewrite lookup_insert_eq.
Qed.

(** C7. When the write of [saveToStorage] fails on the quota, the message
    is the one of a failed save, which no successful save shows, and
    nothing else of the state changes: the form, the photos, the touched
    flag, the saved list, the selected key and the store are as before.
    A save that goes through shows the message of success. *)
Theorem C7_failed_save_is_reported (s : State) (k : string) :
  storageKey tz today (form s) = Some k ->
  Storage.setItem (localStorage s) k (JSON_stringify (record s)) = None ->
  exists s',
    saveToStorage tz today s = Some s'
    /\ saveMsg s' = Msg.saveFailed
    /\ (forall k', saveMsg s' <> Msg.saved k')
    /\ form s' = form s /\ photos s' = photos s /\ logoTouched s' = logoTouched s
    /\ savedList s' = savedList s /\ selectedSavedKey s' = selectedSavedKey s
    /\ localStorage s' = localStorage s.
Proof.
  intros Hk Hfail. exists (setSaveMsg Msg.saveFailed s).
  unfold saveToStorage. rewrite Hk. cbn. unfold saveToStorageAt. rewrite Hfail.
  repeat split. intros k' Heq. by apply (saved_is_not_saveFailed k').
Qed.

Lemma save_success_message s k st :
  Storage.setItem (localStorage s) k (JSON_stringify (record s)) = Some st ->
  saveMsg (saveToStorageAt k s) = Msg.saved k
  /\ localStorage (saveToStorageAt k s) = st
  /\ selectedSavedKey (saveToStorageAt k s) = k
  /\ form (saveToStorageAt k s) = form s
  /\ photos (saveToStorageAt k s) = photos s.
Proof. intros Hok. unfold saveToStorageAt. rewrite Hok. by repeat split. Qed.

(** Loading the record of the state [s] into a state [s'] whose form has no
    field that the saved form lacks. *)
Lemma load_saved_record s s' k :
  Storage.getItem (localStorage s') k = Some (JSON_stringify (record s)) ->
  hasRecommendations (form s) ->
  dom (form s') ⊆ dom (form s) ->
  Js.truthy (Some (photos s)) = true ->
  form (loadFromStorageAt k s') = form s
  /\ photos (loadFromStorageAt k s') = photos s
  /\ saveMsg (loadFromStorageAt k s') = Msg.loaded k.
Proof.
  intros Hget (v & Hv & Hnull) Hdom Hphotos. unfold loadFromStorageAt. rewrite Hget.
  destruct (String.eqb_spec (JSON_stringify (record s)) "") as [He|_];
    [by apply stringify_not_empty in He|].
  rewrite JSON_parse_stringify. rewrite record_form, record_photos, Hphotos.
  cbn -[mergeLoaded]. split; [|done].
  apply map_eq. intros j. destruct (decide (j = "recommendations")) as [->|Hne].
  - rewrite mergeLoaded_recommendations. cbn [Js.member]. rewrite Hv.
    cbn [Js.coalesce]. by destruct v.
  - rewrite mergeLoaded_other by done.
    destruct (form s !! j) as [x|] eqn:Hj.
    + by erewrite lookup_union_Some_l.
    + rewrite lookup_union_r by done.
      apply not_elem_of_dom. apply not_elem_of_dom in Hj. set_solver.
Qed.


(** Merging the form of the state into itself changes nothing. *)
Lemma mergeLoaded_self f : hasRecommendations f -> mergeLoaded f (JObj f) = f.
Proof.
  intros (v & Hv & Hnull). apply map_eq. intros j.
  destruct (decide (j = "recommendations")) as [->|Hne].
  - rewrite mergeLoaded_recommendations. cbn [Js.member]. rewrite Hv.
    cbn [Js.coalesce]. by destruct v.
  - rewrite mergeLoaded_other by done.
    destruct (f !! j) as [x|] eqn:Hj;
      [by erewrite lookup_union_Some_l | by rewrite lookup_union_r].
Qed.

Lemma load_after_save s k st :
  Storage.setItem (localStorage s) k (JSON_stringify (record s)) = Some st ->
  hasRecommendations (form s) ->
  form (loadFromStorageAt k (saveToStorageAt k s)) = form s
  /\ photos (loadFromStorageAt k (saveToStorageAt k s)) = photos s
  /\ saveMsg (loadFromStorageAt k (saveToStorageAt k s)) = Msg.loaded k.
Proof.
  intros Hok Hrec.
  destruct (save_success_message s k st Hok) as (_ & Hst & _ & Hform & Hphotos).
  unfold loadFromStorageAt.
  rewrite Hst, (StorageFacts.getItem_setItem_eq _ _ _ _ Hok).
  destruct (String.eqb_spec (JSON_stringify (record s)) "") as [He|_];
    [by apply stringify_not_empty in He|].
  rewrite JSON_parse_stringify, record_form, record_photos.
  cbn -[mergeLoaded Js.truthy]. change (Js.truthy (Some (JObj (form s)))) with true.
  (* the photos are loaded when truthy, and kept as they are otherwise *)
  destruct (Js.truthy (Some (photos s))); cbn -[mergeLoaded];
    by rewrite ?Hform, ?Hphotos, ?(mergeLoaded_self _ Hrec).
Qed.

Lemma buttons_after_save s k st :
  Storage.setItem (localStorage s) k (JSON_stringify (record s)) = Some st ->
  storageKey tz today (form s) = Some k ->
  saveToStorage tz today s = Some (saveToStorageAt k s)
  /\ forall key, key = None \/ key = Some k ->
       loadFromStorage tz today key (saveToStorageAt k s)
       = Some (loadFromStorageAt k (saveToStorageAt k s)).
Proof.
  intros Hok Hk.
  destruct (save_success_message s k st Hok) as (_ & _ & Hsel & Hform & _).
  split; [unfold saveToStorage; by rewrite Hk|].
  intros key Hkey. unfold loadFromStorage.
  assert (HloadKey : loadKey tz today key (saveToStorageAt k s) = Some k).
  { unfold loadKey, orKey. rewrite Hsel, Hform, Hk.
    destruct Hkey as [->| ->]; cbn; by destruct (String.eqb k ""). }
  by rewrite HloadKey.
Qed.


(** ** Missing and corrupt entries *)

Lemma insertDesc_perm x l : insertDesc x l ≡ₚ x :: l.
Proof.
  induction l as [|y l IH]; [done|]. simpl.
  destruct (String.ltb (key x) (key y)); [|done].
  rewrite IH. apply Permutation_swap.
Qed.

(** The sort keeps the items, each once. *)
Lemma sortDesc_perm l : sortDesc l ≡ₚ l.
Proof.
  induction l as [|x l IH]; [done|]. unfold sortDesc in *. simpl.
  by rewrite insertDesc_perm, IH.
Qed.

Lemma savedEntry_Some st k it :
  savedEntry st k = Some it ->
  key it = k
  /\ exists raw data,
       Storage.getItem st k = Some raw /\ raw <> ""
       /\ JSON_parse raw = Some data
       /\ Js.truthy (Some data) = true /\ Js.isObjectType data = true.
Proof.
  unfold savedEntry. destruct (Storage.getItem st k) as [raw|] eqn:Hget; [|discriminate].
  destruct (String.eqb_spec raw "") as [|Hne]; [discriminate|].
  destruct (JSON_parse raw) as [data|] eqn:Hparse; [|discriminate].
  destruct (Js.truthy (Some data)) eqn:Ht; [|discriminate].
  destruct (Js.isObjectType data) eqn:Ho; [|discriminate].
  cbn. intros [= <-]. split; [reflexivity|]. exists raw, data. by repeat split.
Qed.

Lemma savedList_entry s it :
  it ∈ savedList (savedListEffect s) ->
  exists i, (i < Storage.length (localStorage s))%nat
    /\ savedEntry (localStorage s) (default "" (Storage.key (localStorage s) i)) = Some it.
Proof.
  intros Hin.
  assert (Hitems : it ∈ savedItems (localStorage s)).
  { rewrite <- sortDesc_perm. revert Hin. unfold savedListEffect.
    destruct (sortDesc (savedItems (localStorage s))) as [|x l]; [by cbn|].
    by destruct (String.eqb (selectedSavedKey s) ""); cbn. }
  unfold savedItems in Hitems. apply list_elem_of_omap in Hitems as (i & Hi & Hentry).
  apply elem_of_seq in Hi. exists i. split; [lia|done].
Qed.

(** C8 (amended). A load under a key that the store does not have, or whose
    value is the empty string, reports that there is no saved data; a load
    of a value that is not JSON, or that is the JSON [null], reports that
    it failed; in all these cases the message is all that changes in the
    state. The saved list only has entries whose stored value parses as
    JSON (to an object or an array): the others are passed over, and the
    effect that builds the list returns for every store. *)
Theorem C8_missing_and_unparsable_entries (s : State) (k : string) :
  (Storage.getItem (localStorage s) k = None ->
     loadFromStorageAt k s = setSaveMsg Msg.noData s)
  /\ (Storage.getItem (localStorage s) k = Some "" ->
        loadFromStorageAt k s = setSaveMsg Msg.noData s)
  /\ (forall raw, Storage.getItem (localStorage s) k = Some raw -> raw <> "" ->
        JSON_parse raw = None \/ JSON_parse raw = Some JNull ->
        loadFromStorageAt k s = setSaveMsg Msg.loadFailed s)
  /\ (forall it, it ∈ savedList (savedListEffect s) ->
        exists raw data,
          Storage.getItem (localStorage s) (key it) = Some raw
          /\ JSON_parse raw = Some data)
  /\ (forall raw, Storage.getItem (localStorage s) k = Some raw ->
        JSON_parse raw = None ->
        forall it, it ∈ savedList (savedListEffect s) -> key it <> k).
Proof.
  assert (Hlisted : forall it, it ∈ savedList (savedListEffect s) ->
            exists raw data, Storage.getItem (localStorage s) (key it) = Some raw
                             /\ JSON_parse raw = Some data).
  { intros it Hin. apply savedList_entry in Hin as (i & _ & Hentry).
    apply savedEntry_Some in Hentry as (Hkey & raw & data & Hget & _ & Hparse & _).
    exists raw, data. split; [congruence | assumption]. }
  repeat split.
  - intros Hnone. unfold loadFromStorageAt. by rewrite Hnone.
  - intros Hempty. unfold loadFromStorageAt. by rewrite Hempty.
  - intros raw Hget Hne Hbad. unfold loadFromStorageAt. rewrite Hget.
    destruct (String.eqb_spec raw "") as [|_]; [done|].
    by destruct Hbad as [-> | ->].
  - exact Hlisted.
  - intros raw Hget Hparse it Hin Heq.
    destruct (Hlisted it Hin) as (raw' & data & Hget' & Hparse').
    rewrite Heq in Hget'. congruence.
Qed.

(** ** The logo and the company *)

Lemma logoUrl_not_empty c : String.eqb (logoUrl (COMPANIES c)) "" = false.
Proof. by destruct c. Qed.











(** The field [recommendations] is never lost and never [null]. *)
Lemma mergeLoaded_hasRecommendations prev loaded :
  hasRecommendations prev -> hasRecommendations (mergeLoaded prev loaded).
Proof.
  intros (v & Hv & Hnull). eexists. rewrite mergeLoaded_recommendations.
  split; [reflexivity|]. rewrite Hv.
  destruct (Js.member loaded "recommendations") as [[]|]; cbn; by destruct v.
Qed.

Lemma dispatch_hasRecommendations e s s' :
  hasRecommendations (form s) -> dispatch tz today e s = Some s' ->
  hasRecommendations (form s').
Proof.
  intros Hrec. unfold dispatch.
  destruct (handle tz today e s) as [s1|] eqn:Hh; [|discriminate].
  cbn [mbind option_bind]. intros Hrender.
  assert (H1 : hasRecommendations (form s1)).
  { destruct e as [name value| |key]; cbn in Hh.
    - injection Hh as <-. unfold handleChange.
      destruct Hrec as (v & Hv & Hnull).
      destruct (decide (name = "recommendations")) as [->|Hne].
      + exists (JStr value). split; [|done].
        destruct (String.eqb _ "logoUrl"); cbn; by rewrite lookup_insert_eq.
      + exists v. split; [|done].
        destruct (String.eqb name "logoUrl"); cbn; by rewrite lookup_insert_ne.
    - unfold saveToStorage in Hh. destruct (storageKey _ _ _) as [k|]; [|discriminate].
      injection Hh as <-. unfold saveToStorageAt. by destruct (Storage.setItem _ _ _).
    - unfold loadFromStorage in Hh. destruct (loadKey _ _ _ _) as [k|]; [|discriminate].
      injection Hh as <-. unfold loadFromStorageAt.
      repeat (case_match; try done); cbn -[mergeLoaded];
        by apply mergeLoaded_hasRecommendations. }
  unfold afterRender in Hrender.
  destruct (lookupCompany (form s1 !! "companyId")) as [c|] eqn:Hc; [|discriminate].
  destruct (decide _); [by injection Hrender as <-|].
  unfold logoEffect in Hrender. destruct (logoTouched s1); [by injection Hrender as <-|].
  rewrite Hc in Hrender.
  destruct (String.eqb _ ""); injection Hrender as <-; [done|].
  destruct H1 as (v & Hv & Hnull). exists v. split; [|done].
  cbn. by rewrite lookup_insert_ne.
Qed.

(** Every state that the events reach from the initial state has the
    field [recommendations] in its form. *)
Lemma reachable_hasRecommendations st es s :
  run tz today es (initialState st) = Some s -> hasRecommendations (form s).
Proof.
  assert (Hinit : hasRecommendations (form (initialState st))).
  { exists (JStr ""). by split. }
  revert Hinit. generalize (initialState st). induction es as [|e es IH]; intros s0 H0 Hrun.
  - by injection Hrun as <-.
  - cbn in Hrun. destruct (dispatch tz today e s0) as [s1|] eqn:Hd; [|discriminate].
    cbn in Hrun. eauto using dispatch_hasRecommendations.
Qed.

(** The button Save and then the button Load, in a state that the events
    reach from the initial state: the form and the photos are those that
    were saved. *)
Lemma save_then_load st es s k st' :
  run tz today es (initialState st) = Some s ->
  is_Some (lookupCompany (form s !! "companyId")) ->
  storageKey tz today (form s) = Some k ->
  Storage.setItem (localStorage s) k (JSON_stringify (record s)) = Some st' ->
  exists s2, run tz today [Save; Load None] s = Some s2
    /\ form s2 = form s /\ photos s2 = photos s /\ saveMsg s2 = Msg.loaded k.
Proof.
  intros Hreach [c Hc] Hk Hok.
  destruct (load_after_save s k st' Hok) as (Hform & Hphotos & Hmsg);
    [eauto using reachable_hasRecommendations|].
  destruct (buttons_after_save s k st' Hok Hk) as [Hsave Hloadk].
  destruct (save_success_message s k st' Hok) as (_ & _ & _ & Hform1 & _).
  exists (loadFromStorageAt k (saveToStorageAt k s)).
  split; [|done].
  assert (Hd1 : dispatch tz today Save s = Some (saveToStorageAt k s)).
  { unfold dispatch. cbn [handle]. rewrite Hsave. cbn [mbind option_bind].
    unfold afterRender. rewrite Hform1, Hc. by destruct (decide _). }
  assert (Hd2 : dispatch tz today (Load None) (saveToStorageAt k s)
                = Some (loadFromStorageAt k (saveToStorageAt k s))).
  { unfold dispatch. cbn [handle]. rewrite Hloadk by (by left).
    cbn [mbind option_bind]. unfold afterRender. rewrite Hform, Hform1, Hc.
    by destruct (decide _). }
  cbn [run]. rewrite Hd1. cbn [mbind option_bind]. by rewrite Hd2.
Qed.


End AppFacts.

(** ** The theorems on sample data *)


Lemma C7_failed_save_is_reported_witness :
  exists s',
    saveToStorage 480 "2025-09-16" Demo.fullState = Some s'
    /\ saveMsg s' = Msg.saveFailed
    /\ form s' = form Demo.fullState
    /\ localStorage s' = Demo.fullStore.
Proof.
  destruct (C7_failed_save_is_reported 480 "2025-09-16" Demo.fullState Demo.seaWolfKey)
    as (s' & Hsave & Hmsg & _ & Hform & _ & _ & _ & _ & Hstore);
    [vm_compute; reflexivity | vm_compute; reflexivity |].
  exists s'. split; [exact Hsave|]. split; [exact Hmsg|]. split; [exact Hform | exact Hstore].
Defined.

Lemma C8_missing_and_unparsable_entries_witness :
  loadFromStorageAt "B" Demo.corruptState = setSaveMsg Msg.loadFailed Demo.corruptState
  /\ forall it, it ∈ savedList (savedListEffect Demo.corruptState) -> key it <> "B".
Proof.
  destruct (C8_missing_and_unparsable_entries Demo.corruptState "B")
    as (_ & _ & Hfail & _ & Hskip).
  split.
  - apply (Hfail "{broken"); [reflexivity | discriminate | left; reflexivity].
  - apply (Hskip "{broken"); reflexivity.
Defined.


(** C8 (as the specification states it, at a concrete store). The entry
    under ["K"] parses as JSON and is no record: it has no form and its
    photos are a number. The load does not treat it as absent: it puts the
    number in the place of the photos and reports a load. *)
Lemma C8_non_record_is_loaded :
  (exists raw data,
     Storage.getItem (localStorage Demo.corruptState) "K" = Some raw
     /\ JSON_parse raw = Some data
     /\ ~ isPersistedRecord data)
  /\ photos (loadFromStorageAt "K" Demo.corruptState) = JNum 7
  /\ photos (loadFromStorageAt "K" Demo.corruptState) <> photos Demo.corruptState
  /\ saveMsg (loadFromStorageAt "K" Demo.corruptState) = Msg.loaded "K".
Proof.
  assert (Hload : loadFromStorageAt "K" Demo.corruptState
                  = setSaveMsg (Msg.loaded "K") (setPhotos (JNum 7) Demo.corruptState)).
  { unfold loadFromStorageAt.
    change (Storage.getItem (localStorage Demo.corruptState) "K")
      with (Some (JSON_stringify Demo.notARecord)).
    destruct (String.eqb_spec (JSON_stringify Demo.notARecord) "") as [He|_];
      [by apply stringify_not_empty in He|].
    rewrite JSON_parse_stringify. reflexivity. }
  split.
  - exists (JSON_stringify Demo.notARecord), Demo.notARecord.
    split; [reflexivity|]. split; [apply JSON_parse_stringify|].
    intros (f & ps & Heq & _). unfold Demo.notARecord in Heq.
    apply (f_equal (fun v => Js.member v "form")) in Heq. cbn [Js.member] in Heq.
    rewrite lookup_insert_eq, lookup_insert_ne, lookup_empty in Heq by done.
    discriminate.
  - rewrite Hload. by repeat split.
Qed.

(** * Further properties *)

(** ** Removing, moving and captioning photos *)

Section PhotoListFacts.

Context {A : Type}.
Implicit Types (l prev : list A).

Lemma filterIndex_all (p : nat -> bool) s l :
  (forall i, (s <= i < s + length l)%nat -> p i = true) -> filterIndex p s l = l.
Proof.
  revert s. induction l as [|x l IH]; intros s Hp; [reflexivity|].
  cbn [filterIndex length] in *.
  rewrite Hp by lia. f_equal. apply IH. intros i Hi. apply Hp. lia.
Qed.

(** The filter from the index [s] on drops the cell at [idx] and no other. *)
Lemma filterIndex_drops_one (idx s : nat) l :
  (s <= idx < s + length l)%nat ->
  filterIndex (fun i => negb (Z.of_nat i =? Z.of_nat idx)) s l
  = (take (idx - s) l ++ drop (S (idx - s)) l)%list.
Proof.
  revert s. induction l as [|x l IH]; intros s Hs; [cbn in Hs; lia|].
  cbn [filterIndex length] in *.
  destruct (Z.eqb_spec (Z.of_nat s) (Z.of_nat idx)) as [Heq|Hne]; cbn [negb].
  - assert (s = idx) as -> by lia. rewrite Nat.sub_diag. cbn.
    apply filterIndex_all. intros i Hi. apply negb_true_iff, Z.eqb_neq. lia.
  - rewrite IH by lia. replace (idx - s)%nat with (S (idx - S s)) by lia. reflexivity.
Qed.

Lemma swap_adjacent l (i : nat) a b :
  l !! i = Some a -> l !! S i = Some b ->
  l = (take i l ++ a :: b :: drop (S (S i)) l)%list
  /\ <[S i := a]> (<[i := b]> l) = (take i l ++ b :: a :: drop (S (S i)) l)%list.
Proof.
  intros Ha Hb.
  assert (Hl : l = (take i l ++ a :: b :: drop (S (S i)) l)%list).
  { rewrite <- (take_drop_middle l i a Ha) at 1. do 2 f_equal.
    rewrite <- (take_drop_middle (drop (S i) l) 0 b) at 1
      by (by rewrite lookup_drop, Nat.add_0_r).
    cbn. by rewrite drop_drop, Nat.add_1_r. }
  split; [exact Hl|].
  apply lookup_lt_Some in Ha as Hi. apply lookup_lt_Some in Hb as HSi.
  rewrite Hl at 1.
  assert (Hlen : length (take i l) = i) by (rewrite length_take; lia).
  rewrite insert_app_r_alt by lia. rewrite Hlen, Nat.sub_diag. cbn [insert list_insert].
  rewrite insert_app_r_alt by lia. rewrite Hlen.
  replace (S i - i)%nat with 1%nat by lia. reflexivity.
Qed.

End PhotoListFacts.

(** X1. [removePhoto] with an index of the list drops the photo at that
    index and keeps the others in their order, so the list is one shorter;
    with any other index it returns the list as it is. *)
Theorem X1_removePhoto_drops_one {A} (prev : list A) (idx : Z) :
  (0 <= idx < Z.of_nat (length prev) ->
     removePhoto idx prev
       = (take (Z.to_nat idx) prev ++ drop (S (Z.to_nat idx)) prev)%list
     /\ length (removePhoto idx prev) = (length prev - 1)%nat
     /\ (forall j, (j < Z.to_nat idx)%nat -> removePhoto idx prev !! j = prev !! j)
     /\ (forall j, (Z.to_nat idx <= j)%nat -> removePhoto idx prev !! j = prev !! S j))
  /\ (idx < 0 \/ Z.of_nat (length prev) <= idx -> removePhoto idx prev = prev).
Proof.
  split.
  - intros Hidx. set (i := Z.to_nat idx).
    assert (Heq : removePhoto idx prev = (take i prev ++ drop (S i) prev)%list).
    { unfold removePhoto. replace idx with (Z.of_nat i) by lia.
      rewrite filterIndex_drops_one by lia. by rewrite Nat.sub_0_r. }
    split; [exact Heq|]. rewrite Heq.
    assert (Hlen : length (take i prev) = i) by (rewrite length_take; lia).
    split; [rewrite length_app, Hlen, length_drop; lia|]. split.
    + intros j Hj. rewrite lookup_app_l by lia. by apply lookup_take_lt.
    + intros j Hj. rewrite lookup_app_r by lia. rewrite Hlen, lookup_drop.
      f_equal. lia.
  - intros Hout. unfold removePhoto. apply filterIndex_all.
    intros i Hi. apply negb_true_iff, Z.eqb_neq. lia.
Qed.

(** X2. Moving a photo and then moving it back from where it went gives
    the list that was there: the buttons up and down undo each other. *)
Theorem X2_movePhoto_undone {A} (l : list A) (i : nat) (dir : Z) :
  (i < length l)%nat ->
  dir = 1 \/ dir = -1 ->
  0 <= Z.of_nat i + dir < Z.of_nat (length l) ->
  movePhoto (Z.of_nat i + dir) (- dir) (movePhoto (Z.of_nat i) dir (Some <$> l))
  = Some <$> l.
Proof.
  intros Hi Hdir Ht. set (t := Z.to_nat (Z.of_nat i + dir)).
  assert (Hne : i <> t) by lia.
  destruct (lookup_lt_is_Some_2 l i Hi) as [a Ha].
  destruct (lookup_lt_is_Some_2 l t ltac:(lia)) as [b Hb].
  assert (Hmove : movePhoto (Z.of_nat i) dir (Some <$> l)
                  = Some <$> <[t := a]> (<[i := b]> l)).
  { replace dir with (Z.of_nat t - Z.of_nat i) by lia. by apply movePhoto_in. }
  rewrite Hmove.
  replace (Z.of_nat i + dir) with (Z.of_nat t) by lia.
  replace (- dir) with (Z.of_nat i - Z.of_nat t) by lia.
  rewrite (movePhoto_in _ t i a b).
  - f_equal. apply list_eq. intros j.
    destruct (decide (j = i)) as [->|Hji].
    + rewrite list_lookup_insert_eq by (rewrite !length_insert; lia). done.
    + rewrite list_lookup_insert_ne by done.
      destruct (decide (j = t)) as [->|Hjt].
      * rewrite list_lookup_insert_eq by (rewrite !length_insert; lia). done.
      * by rewrite !list_lookup_insert_ne by done.
  - rewrite list_lookup_insert_eq by (rewrite length_insert; lia). done.
  - rewrite list_lookup_insert_ne by done.
    rewrite list_lookup_insert_eq by lia. done.
Qed.

Lemma X2_movePhoto_undone_witness :
  movePhoto (0 + 1) (- 1) (movePhoto 0 1 (Some <$> [Demo.bow; Demo.stern]))
  = Some <$> [Demo.bow; Demo.stern].
Proof.
  apply (X2_movePhoto_undone [Demo.bow; Demo.stern] 0 1);
    [simpl; lia | by left | simpl; lia].
Defined.

(** X3. [movePhoto] with an index of the list and a direction of [1] or
    [-1] returns the same photos, each once and none undefined, whether
    the target is inside the list or not. *)
Theorem X3_movePhoto_keeps_the_photos {A} (l : list A) (i : nat) (dir : Z) :
  (i < length l)%nat ->
  dir = 1 \/ dir = -1 ->
  exists l' : list A,
    movePhoto (Z.of_nat i) dir (Some <$> l) = Some <$> l'
    /\ l' ≡ₚ l /\ length l' = length l.
Proof.
  intros Hi Hdir.
  destruct (decide (0 <= Z.of_nat i + dir < Z.of_nat (length l))) as [Hin|Hout].
  - destruct (lookup_lt_is_Some_2 l i Hi) as [a Ha].
    destruct Hdir as [-> | ->].
    + destruct (lookup_lt_is_Some_2 l (S i) ltac:(lia)) as [b Hb].
      exists (<[S i := a]> (<[i := b]> l)).
      replace 1 with (Z.of_nat (S i) - Z.of_nat i) by lia.
      split; [by apply movePhoto_in|].
      split; [|by rewrite !length_insert].
      destruct (swap_adjacent l i a b Ha Hb) as [Hl ->]. rewrite Hl at 3.
      apply Permutation_app_head, Permutation_swap.
    + destruct i as [|t]; [lia|].
      destruct (lookup_lt_is_Some_2 l t ltac:(lia)) as [b Hb].
      exists (<[t := a]> (<[S t := b]> l)).
      replace (-1) with (Z.of_nat t - Z.of_nat (S t)) by lia.
      split; [by apply movePhoto_in|].
      split; [|by rewrite !length_insert].
      rewrite list_insert_insert_ne by lia.
      destruct (swap_adjacent l t b a Hb Ha) as [Hl ->]. rewrite Hl at 3.
      apply Permutation_app_head, Permutation_swap.
  - exists l. split; [|done]. apply movePhoto_out. rewrite length_fmap. lia.
Qed.

Lemma X3_movePhoto_keeps_the_photos_witness :
  exists l' : list Photo,
    movePhoto 1 (-1) [Some Demo.bow; Some Demo.stern] = Some <$> l'
    /\ l' ≡ₚ [Demo.bow; Demo.stern] /\ length l' = 2%nat.
Proof.
  apply (X3_movePhoto_keeps_the_photos [Demo.bow; Demo.stern] 1 (-1));
    [simpl; lia | by right].
Defined.

(** X4. The caption input of the photo at [i] changes the caption of that
    photo and nothing else: the list keeps its length and its order, every
    photo keeps its identifier and its image, and the other photos keep
    their captions; an index outside the list changes nothing. *)
Theorem X4_setCaption_touches_one_caption (prev : list Photo) (i : nat) (value : string) :
  length (setCaption i value prev) = length prev
  /\ id <$> setCaption i value prev = id <$> prev
  /\ src <$> setCaption i value prev = src <$> prev
  /\ (forall p, prev !! i = Some p ->
        setCaption i value prev !! i
        = Some {| id := id p; src := src p; caption := value |})
  /\ (forall j, j <> i -> setCaption i value prev !! j = prev !! j)
  /\ ((length prev <= i)%nat -> setCaption i value prev = prev).
Proof.
  assert (Hlookup : forall j, setCaption i value prev !! j
            = (fun ph => if decide (j = i)
                         then {| id := id ph; src := src ph; caption := value |}
                         else ph) <$> prev !! j).
  { intros j. unfold setCaption. by rewrite list_lookup_imap. }
  assert (Hother : forall j, j <> i -> setCaption i value prev !! j = prev !! j).
  { intros j Hj. rewrite Hlookup. destruct (decide (j = i)); [done|].
    by destruct (prev !! j). }
  split; [unfold setCaption; apply length_imap|].
  split; [|split; [|split; [|split; [exact Hother|]]]].
  - apply list_eq. intros j. rewrite !list_lookup_fmap, Hlookup.
    destruct (prev !! j); [|done]. cbn. by destruct (decide (j = i)).
  - apply list_eq. intros j. rewrite !list_lookup_fmap, Hlookup.
    destruct (prev !! j); [|done]. cbn. by destruct (decide (j = i)).
  - intros p Hp. rewrite Hlookup, Hp. cbn. by destruct (decide (i = i)).
  - intros Hi. apply list_eq. intros j. destruct (decide (j = i)) as [->|Hj].
    + rewrite Hlookup. by rewrite (lookup_ge_None_2 prev i Hi).
    + by apply Hother.
Qed.

(** ** The service types *)

(** X5. The checkbox of a service type flips whether that type is selected
    and leaves the selection of every other type as it was; a list without
    repetition stays without repetition. *)
Theorem X5_toggleServiceType_flips_one (opt : string) (serviceTypes : list string) :
  (opt ∈ toggleServiceType opt serviceTypes <-> opt ∉ serviceTypes)
  /\ (forall x, x <> opt -> x ∈ toggleServiceType opt serviceTypes <-> x ∈ serviceTypes)
  /\ (NoDup serviceTypes -> NoDup (toggleServiceType opt serviceTypes)).
Proof.
  unfold toggleServiceType. destruct (decide (opt ∈ serviceTypes)) as [Hin|Hout].
  - split; [|split].
    + rewrite list_elem_of_filter. split; [intros [Hne _]; done | done].
    + intros x Hx. rewrite list_elem_of_filter. tauto.
    + apply NoDup_filter.
  - split; [|split].
    + rewrite elem_of_app, list_elem_of_singleton. tauto.
    + intros x Hx. rewrite elem_of_app, list_elem_of_singleton. tauto.
    + intros Hnd. apply NoDup_app. split; [done|]. split; [|apply NoDup_singleton].
      intros x Hx ->%list_elem_of_singleton. done.
Qed.

Lemma filter_ne_absent (opt : string) (l : list string) :
  opt ∉ l -> filter (fun x => x ≠ opt) l = l.
Proof.
  induction l as [|x l IH]; intros Hout; [done|].
  apply not_elem_of_cons in Hout as [Hne Hout].
  rewrite filter_cons_True by done. by rewrite IH.
Qed.

(** X6. Clicking the checkbox of a service type twice: when the type was
    not selected, the list is the one before the clicks; when it was
    selected, the type is taken out wherever it was and put back at the
    end, so the order of the display may change. *)
Theorem X6_toggleServiceType_twice (opt : string) (serviceTypes : list string) :
  (opt ∉ serviceTypes ->
     toggleServiceType opt (toggleServiceType opt serviceTypes) = serviceTypes)
  /\ (opt ∈ serviceTypes ->
        toggleServiceType opt (toggleServiceType opt serviceTypes)
        = (filter (fun x => x ≠ opt) serviceTypes ++ [opt])%list).
Proof.
  split; intros Hopt.
  - unfold toggleServiceType at 2. destruct (decide _) as [|_]; [done|].
    unfold toggleServiceType. destruct (decide _) as [_|Hout].
    + rewrite filter_app, filter_ne_absent by done.
      rewrite filter_cons_False by (intros Hne; by apply Hne). by rewrite app_nil_r.
    + exfalso. apply Hout. rewrite elem_of_app, list_elem_of_singleton. by right.
  - unfold toggleServiceType at 2. destruct (decide _) as [_|]; [|done].
    unfold toggleServiceType. destruct (decide _) as [Hin|_]; [|done].
    apply list_elem_of_filter in Hin as [Hne _]. done.
Qed.

Lemma string_app_assoc (a b c : string) : (a +:+ b) +:+ c = a +:+ (b +:+ c).
Proof.
  induction a as [|x a IH]; [reflexivity|].
  change (String x ((a +:+ b) +:+ c) = String x (a +:+ (b +:+ c))). by rewrite IH.
Qed.

Lemma string_app_nil_r (a : string) : a +:+ "" = a.
Proof.
  induction a as [|x a IH]; [reflexivity|].
  change (String x (a +:+ "") = String x a). by rewrite IH.
Qed.

Lemma indexOf_Some x l i :
  indexOf x l = Some i ->
  l !! i = Some x /\ forall j, (j < i)%nat -> l !! j <> Some x.
Proof.
  revert i. induction l as [|y l IH]; intros i; [done|]. cbn [indexOf].
  destruct (String.eqb_spec y x) as [->|Hne].
  - intros [= <-]. split; [done|]. lia.
  - destruct (indexOf x l) as [k|]; [|done]. cbn. intros [= <-].
    destruct (IH k eq_refl) as [Hk Hfirst]. split; [done|].
    intros [|j] Hj; cbn; [congruence|]. apply Hfirst. lia.
Qed.

Lemma indexOf_None x l : indexOf x l = None <-> x ∉ l.
Proof.
  induction l as [|y l IH]; cbn [indexOf].
  - split; [intros _; apply not_elem_of_nil | done].
  - rewrite not_elem_of_cons. destruct (String.eqb_spec y x) as [->|Hne].
    + split; [done | intros [? _]; done].
    + destruct (indexOf x l) as [k|]; cbn.
      * split; [done|]. intros [_ Hout]. by apply IH in Hout.
      * split; [|done]. intros _. split; [congruence | by apply IH].
Qed.

(** An item of a joined list is a part of the string. *)
Lemma concat_has_item sep (l : list string) i x :
  l !! i = Some x -> exists pre post, String.concat sep l = pre +:+ x +:+ post.
Proof.
  revert i. induction l as [|y l IH]; intros i Hi; [done|].
  destruct i as [|i]; cbn in Hi.
  - injection Hi as ->. exists "". destruct l as [|z l]; cbn [String.concat].
    + exists "". change (x = x +:+ ""). by rewrite string_app_nil_r.
    + by eexists.
  - destruct (IH i Hi) as (pre & post & Heq). destruct l as [|z l]; [done|].
    cbn [String.concat] in *. rewrite Heq. exists (y +:+ sep +:+ pre), post.
    by rewrite !string_app_assoc.
Qed.

(** X7. The display of the service types: without the type Others, or
    without a qualifier, it is the types joined by commas; with both, the
    first Others of the list, and only that item, is replaced by
    [Others: ] and the qualifier, which the display then contains. *)
Theorem X7_serviceTypeDisplay_qualifies_others
    (serviceTypes : list string) (serviceTypeOther : string) :
  ("Others" ∉ serviceTypes \/ serviceTypeOther = "" ->
     serviceTypeDisplay serviceTypes serviceTypeOther = String.concat ", " serviceTypes)
  /\ ("Others" ∈ serviceTypes -> serviceTypeOther <> "" ->
        exists idx pre post,
          serviceTypes !! idx = Some "Others"
          /\ (forall j, (j < idx)%nat -> serviceTypes !! j <> Some "Others")
          /\ serviceTypeDisplay serviceTypes serviceTypeOther
             = String.concat ", " (<[idx := "Others: " +:+ serviceTypeOther]> serviceTypes)
          /\ serviceTypeDisplay serviceTypes serviceTypeOther
             = pre +:+ ("Others: " +:+ serviceTypeOther) +:+ post).
Proof.
  unfold serviceTypeDisplay. split.
  - intros [Hout| ->].
    + apply indexOf_None in Hout. by rewrite Hout.
    + by destruct (indexOf "Others" serviceTypes).
  - intros Hin Hother.
    destruct (indexOf "Others" serviceTypes) as [idx|] eqn:Hidx;
      [|by apply indexOf_None in Hidx].
    apply indexOf_Some in Hidx as [Hat Hfirst].
    destruct (String.eqb_spec serviceTypeOther "") as [|_]; [done|].
    apply lookup_lt_Some in Hat as Hlt.
    destruct (concat_has_item ", "
                (<[idx := "Others: " +:+ serviceTypeOther]> serviceTypes) idx
                ("Others: " +:+ serviceTypeOther)) as (pre & post & Heq);
      [by apply list_lookup_insert_eq|].
    by exists idx, pre, post.
Qed.

Lemma X7_serviceTypeDisplay_qualifies_others_witness :
  exists idx,
    ["Troubleshooting"; "Others"] !! idx = Some "Others"
    /\ serviceTypeDisplay ["Troubleshooting"; "Others"] "Leak test"
       = String.concat ", " (<[idx := "Others: Leak test"]> ["Troubleshooting"; "Others"]).
Proof.
  destruct (X7_serviceTypeDisplay_qualifies_others ["Troubleshooting"; "Others"] "Leak test")
    as [_ Hq].
  destruct Hq as (idx & pre & post & Hat & _ & Hdisplay & _);
    [apply list_elem_of_In; simpl; tauto | discriminate |].
  exists idx. split; [exact Hat | exact Hdisplay].
Defined.

(** ** The photos of the printable report *)

Section PrintFacts.

Implicit Types (photos rest : list Photo) (items : list PrintItem).

Lemma figures_app items1 items2 :
  figures (items1 ++ items2) = (figures items1 ++ figures items2)%list.
Proof. apply omap_app. Qed.

Lemma figures_figs (f : nat -> Photo -> Figure) photos :
  figures (imap (fun i p => Fig (f i p)) photos) = imap f photos.
Proof.
  revert f. induction photos as [|p photos IH]; intros f; [reflexivity|].
  cbn. f_equal. apply (IH (f ∘ S)).
Qed.

Lemma figures_concat (l : list (list PrintItem)) :
  figures (concat l) = concat (figures <$> l).
Proof.
  induction l as [|x l IH]; [reflexivity|].
  cbn [concat fmap list_fmap]. by rewrite figures_app, IH.
Qed.

Lemma figures_printGroup firstLength groupsLength gi group :
  figures (printGroup firstLength groupsLength gi group)
  = imap (fun i p => figure (2 + gi * 4 + i + 1) (firstLength + 1 + gi * 4 + i) p) group.
Proof.
  unfold printGroup. rewrite figures_app, figures_figs.
  destruct (decide _); cbn; by rewrite app_nil_r.
Qed.

(** The figures of the groups of four, numbered through. *)
Lemma groups_figures (F : nat -> Photo -> Figure) rest n :
  concat (imap (fun gi g => imap (fun i p => F (gi * 4 + i)%nat p) g)
               ((fun k => take 4 (drop (4 * k) rest)) <$> seq 0 n))
  = imap F (take (4 * n) rest).
Proof.
  induction n as [|n IH]; [reflexivity|].
  rewrite seq_S, fmap_app, imap_app, concat_app, IH.
  rewrite length_fmap, length_seq.
  replace (4 * S n)%nat with (4 * n + 4)%nat by lia.
  rewrite <- (take_take_drop rest (4 * n) 4), imap_app.
  f_equal. cbn. rewrite app_nil_r.
  apply imap_ext. intros i x Hi.
  apply lookup_lt_Some in Hi. rewrite length_take, length_drop in Hi.
  rewrite length_take. f_equal. lia.
Qed.

Lemma pageBreaks_app items1 items2 :
  pageBreaks (items1 ++ items2) = (pageBreaks items1 + pageBreaks items2)%nat.
Proof. unfold pageBreaks. by rewrite omap_app, length_app. Qed.

Lemma pageBreaks_figs (f : nat -> Photo -> Figure) photos :
  pageBreaks (imap (fun i p => Fig (f i p)) photos) = 0%nat.
Proof.
  revert f. induction photos as [|p photos IH]; intros f; [reflexivity|].
  apply (IH (f ∘ S)).
Qed.

(** Every group but the last one of the document ends its page. *)
Lemma pageBreaks_inner firstLength groupsLength (gs : list (list Photo)) :
  (length gs <= groupsLength - 1)%nat ->
  pageBreaks (concat (imap (printGroup firstLength groupsLength) gs)) = length gs.
Proof.
  induction gs as [|g gs IH] using rev_ind; intros Hle; [reflexivity|].
  rewrite length_app in Hle. cbn in Hle.
  rewrite imap_app, concat_app, pageBreaks_app, IH by lia.
  rewrite length_app. cbn [imap concat length]. rewrite app_nil_r. f_equal.
  unfold printGroup. rewrite pageBreaks_app, pageBreaks_figs.
  destruct (decide _) as [|Heq]; [reflexivity | lia].
Qed.

Lemma pageBreaks_groups firstLength (gs : list (list Photo)) :
  pageBreaks (concat (imap (printGroup firstLength (length gs)) gs))
  = (length gs - 1)%nat.
Proof.
  destruct gs as [|g gs _] using rev_ind; [reflexivity|].
  rewrite imap_app, concat_app, pageBreaks_app.
  rewrite pageBreaks_inner by (rewrite length_app; cbn; lia).
  rewrite length_app. cbn [imap concat length]. rewrite app_nil_r.
  unfold printGroup. rewrite pageBreaks_app, pageBreaks_figs.
  destruct (decide _) as [Hne|]; [lia | cbn; lia].
Qed.

Lemma last_figs (f : nat -> Photo -> Figure) photos :
  photos ≠ [] ->
  exists x, last (imap (fun i p => Fig (f i p)) photos) = Some (Fig x).
Proof.
  destruct photos as [|p photos _] using rev_ind; [done|]. intros _.
  rewrite imap_app. cbn. rewrite last_snoc. eauto.
Qed.

End PrintFacts.

(** X8. The printable report shows every photo once, in the order of the
    list, and the photo at position [j] (from 0) is figure [j + 1]: its
    caption starts with that number and its default alternative text
    carries the same number, in the first two photos as in the groups of
    four. *)
Theorem X8_printPhotos_numbers_figures (photos : list Photo) :
  figures (printPhotos photos)
  = imap (fun j p => figure (j + 1) (j + 1) p) photos.
Proof.
  unfold printPhotos.
  destruct (0 <? length photos)%nat eqn:Hlen;
    [|apply Nat.ltb_ge in Hlen; by destruct photos; [|cbn in Hlen; lia]].
  rewrite !figures_app, figures_concat, fmap_imap.
  rewrite (imap_ext _ (fun gi g =>
             imap (fun i p =>
                     (fun m q => figure (2 + m + 1)
                                   (length (firstTwo (paginatePhotos photos)) + 1 + m) q)
                       (gi * 4 + i)%nat p) g))
    by (intros gi g _; cbn; rewrite figures_printGroup;
        apply imap_ext; intros i p _; f_equal; lia).
  unfold paginatePhotos. cbn [firstTwo groups].
  rewrite groupsLoop_spec. cbn [app].
  rewrite (list_fmap_ext _ (fun k => take 4 (drop (4 * k) (drop 2 photos))) (seq 0 _))
    by (intros _ k _; reflexivity).
  rewrite (groups_figures
             (fun m q => figure (2 + m + 1) (length (JsArray.slice 0 2 photos) + 1 + m) q)
             (drop 2 photos)).
  rewrite take_ge by (rewrite length_drop; unfold turns; lia).
  transitivity (imap (fun j p => figure (j + 1) (j + 1) p) (take 2 photos ++ drop 2 photos));
    [|by rewrite take_drop].
  rewrite imap_app. unfold JsArray.slice. cbn [Nat.sub]. rewrite !drop_0.
  f_equal.
  - destruct (0 <? length (take 2 photos))%nat eqn:Hfirst; [apply figures_figs|].
    apply Nat.ltb_ge in Hfirst. by destruct (take 2 photos); [|cbn in Hfirst; lia].
  - match goal with |- (?b ++ _)%list = _ => replace b with (@nil Figure) end.
    2:{ by destruct (_ && _). }
    cbn [app]. apply imap_ext. intros i p Hi.
    apply lookup_lt_Some in Hi. rewrite length_drop in Hi.
    rewrite length_take. f_equal; lia.
Qed.

(** X9. The printable report has one page break per group of four, that
    is [(n + 1) / 4] of them for [n] photos: one after the first two
    photos when groups follow, one after every group but the last.  The
    block never ends with a page break, so no empty page follows the
    photos. *)
Theorem X9_printPhotos_page_breaks (photos : list Photo) :
  pageBreaks (printPhotos photos) = length (groups (paginatePhotos photos))
  /\ pageBreaks (printPhotos photos) = ((length photos + 1) / 4)%nat
  /\ last (printPhotos photos) ≠ Some PageBreak.
Proof.
  assert (Hcount : pageBreaks (printPhotos photos)
                   = length (groups (paginatePhotos photos))).
  { unfold printPhotos.
    destruct (0 <? length photos)%nat eqn:Hlen.
    2:{ apply Nat.ltb_ge in Hlen. by destruct photos; [|cbn in Hlen; lia]. }
    apply Nat.ltb_lt in Hlen.
    rewrite !pageBreaks_app, pageBreaks_groups.
    assert (Hfirst : (0 <? length (firstTwo (paginatePhotos photos)))%nat = true).
    { apply Nat.ltb_lt. unfold paginatePhotos, JsArray.slice. cbn [firstTwo Nat.sub].
      rewrite drop_0, length_take. lia. }
    rewrite Hfirst, pageBreaks_figs, andb_true_r.
    destruct (0 <? length (groups (paginatePhotos photos)))%nat eqn:Hgroups.
    - apply Nat.ltb_lt in Hgroups. change (pageBreaks [PageBreak]) with 1%nat. lia.
    - apply Nat.ltb_ge in Hgroups. change (pageBreaks []) with 0%nat. lia. }
  split; [exact Hcount|]. split.
  { rewrite Hcount, groups_length.
    destruct (decide (length photos < 2)%nat) as [Hsmall|Hbig].
    - replace (length photos - 2 + 3)%nat with 3%nat by lia.
      destruct (length photos) as [|[|?]]; [reflexivity | reflexivity | lia].
    - f_equal. lia. }
  unfold printPhotos.
  destruct (0 <? length photos)%nat eqn:Hlen; [|done].
  apply Nat.ltb_lt in Hlen.
  assert (Hfirst : firstTwo (paginatePhotos photos) ≠ []).
  { unfold paginatePhotos, JsArray.slice. cbn [firstTwo Nat.sub]. rewrite drop_0.
    destruct photos; [cbn in Hlen; lia | done]. }
  destruct (groups (paginatePhotos photos)) as [|g gs _] eqn:Hgroups using rev_ind.
  - cbn [length imap concat]. rewrite andb_false_l, !app_nil_r.
    destruct (0 <? _)%nat eqn:Hnone.
    + destruct (last_figs (fun i p => figure (i + 1) (i + 1) p) _ Hfirst) as [x ->]. done.
    + apply Nat.ltb_ge in Hnone.
      by destruct (firstTwo (paginatePhotos photos)); [|cbn in Hnone; lia].
  - assert (Hg : g ≠ []).
    { destruct (groups_lookup photos (length gs) g) as [-> Hlt].
      - rewrite Hgroups. apply list_lookup_middle. reflexivity.
      - intros Hnil. apply (f_equal length) in Hnil.
        rewrite length_take, length_drop in Hnil. cbn [length] in Hnil. lia. }
    rewrite imap_app, concat_app. cbn [imap concat]. rewrite app_nil_r.
    rewrite !app_assoc, last_app.
    unfold printGroup at 1.
    rewrite length_app. cbn [length].
    destruct (decide ((length gs + 0)%nat ≠ (length gs + 1 - 1)%nat)) as [Hne|_]; [lia|].
    rewrite app_nil_r.
    destruct (last_figs
                (fun i p => figure (2 + (length gs + 0) * 4 + i + 1)
                              (length (firstTwo (paginatePhotos photos)) + 1
                               + (length gs + 0) * 4 + i) p) g Hg) as [x ->].
    done.
Qed.

(** ** The order of the keys *)

Section StringOrder.

Lemma ascii_compare_refl c : Ascii.compare c c = Eq.
Proof. unfold Ascii.compare. apply N.compare_refl. Qed.

Lemma ascii_compare_lt_trans a b c :
  Ascii.compare a b = Lt -> Ascii.compare b c = Lt -> Ascii.compare a c = Lt.
Proof.
  unfold Ascii.compare. rewrite !N.compare_lt_iff. apply N.lt_trans.
Qed.

Lemma string_compare_lt_trans a b c :
  String.compare a b = Lt -> String.compare b c = Lt -> String.compare a c = Lt.
Proof.
  revert b c. induction a as [|x a IH]; intros [|y b] [|z c]; cbn; try done.
  destruct (Ascii.compare x y) eqn:Hxy; [| |done];
    destruct (Ascii.compare y z) eqn:Hyz; try done.
  - apply Ascii.compare_eq_iff in Hxy as ->. apply Ascii.compare_eq_iff in Hyz as ->.
    rewrite ascii_compare_refl. apply IH.
  - apply Ascii.compare_eq_iff in Hxy as ->. by rewrite Hyz.
  - apply Ascii.compare_eq_iff in Hyz as <-. by rewrite Hxy.
  - by rewrite (ascii_compare_lt_trans _ _ _ Hxy Hyz).
Qed.

Lemma ltb_asym a b : String.ltb a b = true -> String.ltb b a = false.
Proof.
  unfold String.ltb. rewrite (String.compare_antisym b a).
  by destruct (String.compare a b).
Qed.

(** [b <= a] and [c <= b] give [c <= a]. *)
Lemma not_ltb_trans a b c :
  String.ltb a b = false -> String.ltb b c = false -> String.ltb a c = false.
Proof.
  unfold String.ltb. intros Hab Hbc.
  destruct (String.compare a c) eqn:Hac; try done.
  destruct (String.compare a b) eqn:Hba; try done.
  - apply String.compare_eq_iff in Hba as ->. by rewrite Hac in Hbc.
  - assert (Hlt : String.compare b a = Lt).
    { rewrite String.compare_antisym, Hba. reflexivity. }
    by rewrite (string_compare_lt_trans _ _ _ Hlt Hac) in Hbc.
Qed.

End StringOrder.

(** ** The saved list and the store *)

Section SavedListFacts.

Context `{JsonCodec}.
Variables (tz : Z) (today : string).

Lemma insertDesc_descending x l : descending l -> descending (insertDesc x l).
Proof.
  unfold descending. induction 1 as [|y l Hl IH Hy]; cbn.
  - by repeat constructor.
  - destruct (String.ltb (key x) (key y)) eqn:Hxy.
    + constructor; [exact IH|].
      rewrite insertDesc_perm. constructor; [by apply ltb_asym | exact Hy].
    + constructor; [by constructor|].
      constructor; [exact Hxy|].
      eapply Forall_impl; [exact Hy|]. intros z Hz. cbn in *.
      by eapply not_ltb_trans.
Qed.

Lemma sortDesc_descending l : descending (sortDesc l).
Proof.
  induction l as [|x l IH]; [constructor|]. by apply insertDesc_descending.
Qed.

Lemma savedList_savedListEffect s :
  savedList (savedListEffect s) = sortDesc (savedItems (localStorage s)).
Proof.
  unfold savedListEffect. destruct (sortDesc _); [done|].
  by destruct (String.eqb _ "").
Qed.

Lemma savedEntry_listed st k raw data :
  Storage.getItem st k = Some raw -> raw <> "" ->
  JSON_parse raw = Some data -> Js.isObjectType data = true -> data <> JNull ->
  exists p, savedEntry st k = Some {| key := k; label := k; preview := p |}.
Proof.
  intros Hget Hne Hparse Hobj Hnull. unfold savedEntry. rewrite Hget.
  destruct (String.eqb_spec raw "") as [|_]; [done|]. rewrite Hparse, Hobj.
  destruct data; try done; cbn; eauto.
Qed.

Lemma filter_key_length k (l : list SavedItem) :
  length (filter (fun it => key it = k) (filter (fun it => key it ≠ k) l)) = 0%nat.
Proof.
  induction l as [|x l IH]; [done|].
  rewrite (filter_cons (fun it => key it ≠ k)).
  destruct (decide (key x ≠ k)) as [Hx|Hx]; [|exact IH].
  rewrite filter_cons. by destruct (decide (key x = k)).
Qed.

(** Putting the entry of [k] in front of the entries of the other keys
    keeps the keys distinct. *)
Lemma save_list_NoDup k (item : SavedItem) (l : list SavedItem) :
  key item = k -> NoDup (key <$> l) ->
  NoDup (key <$> item :: filter (fun i => key i ≠ k) l).
Proof.
  intros Hitem Hnodup. rewrite fmap_cons. apply NoDup_cons. split.
  - rewrite list_elem_of_fmap. intros (it & Hkey & Hin).
    apply list_elem_of_filter in Hin as [Hne _]. apply Hne. congruence.
  - clear Hitem. induction l as [|x l IH]; [constructor|].
    rewrite fmap_cons in Hnodup. apply NoDup_cons in Hnodup as [Hx Hl].
    rewrite filter_cons. destruct (decide (key x ≠ k)); [|by apply IH].
    rewrite fmap_cons. apply NoDup_cons. split; [|by apply IH].
    rewrite list_elem_of_fmap. intros (it & Hkey & Hin).
    apply list_elem_of_filter in Hin as [_ Hin].
    apply Hx. rewrite list_elem_of_fmap. eauto.
Qed.

(** X10. After a save that goes through, the saved list starts with the
    entry of the key, whose preview is the image of the first photo, and
    has that key once: a second save under the same key does not list it
    twice.  The entries of the other keys are those of before, in the same
    order, and keys that were listed once each still are. *)
Theorem X10_save_lists_the_key_once (s : State) (k : string) (st : Storage.t) :
  Storage.setItem (localStorage s) k (JSON_stringify (record s)) = Some st ->
  let l' := savedList (saveToStorageAt k s) in
  head l' = Some {| key := k; label := k; preview := firstSrc (photos s) |}
  /\ length (filter (fun it => key it = k) l') = 1%nat
  /\ filter (fun it => key it ≠ k) l' = filter (fun it => key it ≠ k) (savedList s)
  /\ (forall it, key it <> k -> it ∈ l' <-> it ∈ savedList s)
  /\ (NoDup (key <$> savedList s) -> NoDup (key <$> l')).
Proof.
  intros Hok l'. subst l'. unfold saveToStorageAt. rewrite Hok.
  cbn [savedList setSavedList setSelectedSavedKey setSaveMsg writeStorage].
  set (item := {| key := k; label := k; preview := firstSrc (photos s) |}).
  split; [reflexivity|]. split; [|split; [|split]].
  - rewrite filter_cons. destruct (decide (key item = k)) as [_|Hne]; [|done].
    cbn [length]. by rewrite filter_key_length.
  - rewrite filter_cons. destruct (decide (key item ≠ k)) as [Hne|_]; [done|].
    apply list_filter_filter_l. done.
  - intros it Hne. rewrite elem_of_cons, list_elem_of_filter. split.
    + intros [->|[_ Hin]]; [done | exact Hin].
    + intros Hin. by right.
  - intros Hnodup. by apply save_list_NoDup.
Qed.

(** X11. A save writes under its key only: whether it goes through or
    fails on the quota, every other key of the store reads as before, and
    the capacity of the store is the same.  A load writes nothing: the
    store, the saved list, the selected key and the flag of the logo are
    as before, whatever the store holds under the key. *)
Theorem X11_save_and_load_keep_the_rest (s : State) (k : string) :
  (forall k', k' <> k ->
     Storage.getItem (localStorage (saveToStorageAt k s)) k'
     = Storage.getItem (localStorage s) k')
  /\ Storage.quota (localStorage (saveToStorageAt k s)) = Storage.quota (localStorage s)
  /\ localStorage (loadFromStorageAt k s) = localStorage s
  /\ savedList (loadFromStorageAt k s) = savedList s
  /\ selectedSavedKey (loadFromStorageAt k s) = selectedSavedKey s
  /\ logoTouched (loadFromStorageAt k s) = logoTouched s.
Proof.
  split; [|split].
  - intros k' Hne. unfold saveToStorageAt.
    destruct (Storage.setItem _ _ _) as [st|] eqn:Hset; [|reflexivity].
    cbn [localStorage setSavedList setSelectedSavedKey setSaveMsg writeStorage].
    eapply StorageFacts.getItem_setItem_ne; [|exact Hset]. congruence.
  - unfold saveToStorageAt.
    destruct (Storage.setItem _ _ _) as [st|] eqn:Hset; [|reflexivity].
    cbn [localStorage setSavedList setSelectedSavedKey setSaveMsg writeStorage].
    unfold Storage.setItem in Hset. destruct (_ <=? _)%nat; [|discriminate].
    by injection Hset as <-.
  - unfold loadFromStorageAt. repeat (case_match; try done).
Qed.

(** X12. The saved list that the mount effect builds holds the entries of
    the store that are listed, each as often as the store has it, with
    the keys from the greatest to the least.  Every key of the store whose
    value is not empty and parses to an object or an array is in the list,
    under its own name.  When no key was selected, the first entry, which
    has the greatest key, becomes the selected one; a key that was
    selected stays. *)
Theorem X12_savedList_is_sorted_and_complete (s : State) :
  let l := savedList (savedListEffect s) in
  l ≡ₚ savedItems (localStorage s)
  /\ descending l
  /\ (forall i k raw data,
        Storage.key (localStorage s) i = Some k ->
        Storage.getItem (localStorage s) k = Some raw -> raw <> "" ->
        JSON_parse raw = Some data -> Js.isObjectType data = true -> data <> JNull ->
        exists it, it ∈ l /\ key it = k /\ label it = k)
  /\ (forall x r, l = x :: r ->
        (forall it, it ∈ l -> String.ltb (key x) (key it) = false)
        /\ (selectedSavedKey s = "" -> selectedSavedKey (savedListEffect s) = key x))
  /\ (selectedSavedKey s <> "" ->
        selectedSavedKey (savedListEffect s) = selectedSavedKey s).
Proof.
  intros l. subst l. rewrite savedList_savedListEffect.
  split; [apply sortDesc_perm|]. split; [apply sortDesc_descending|].
  split; [|split].
  - intros i k raw data Hkey Hget Hne Hparse Hobj Hnull.
    destruct (savedEntry_listed _ _ _ _ Hget Hne Hparse Hobj Hnull) as [p Hentry].
    exists {| key := k; label := k; preview := p |}. split; [|split; reflexivity].
    rewrite sortDesc_perm. unfold savedItems. apply list_elem_of_omap.
    exists i. split.
    + apply elem_of_seq. unfold Storage.key in Hkey. unfold Storage.length.
      destruct (Storage.items (localStorage s) !! i) as [kv|] eqn:Hi; [|discriminate].
      apply lookup_lt_Some in Hi. lia.
    + rewrite Hkey. exact Hentry.
  - intros x r Hl. split.
    + intros it Hin. pose proof (sortDesc_descending (savedItems (localStorage s))) as Hs.
      unfold descending in Hs. rewrite Hl in Hs, Hin.
      apply StronglySorted_inv in Hs as [_ Hall].
      apply elem_of_cons in Hin as [->|Hin].
      * unfold String.ltb. destruct (String.compare (key x) (key x)) eqn:Hc; try done.
        pose proof (String.compare_antisym (key x) (key x)) as Ha.
        rewrite Hc in Ha. discriminate.
      * rewrite Forall_forall in Hall. by apply Hall.
    + intros Hsel. unfold savedListEffect. rewrite Hl, Hsel. reflexivity.
  - intros Hsel. unfold savedListEffect.
    destruct (sortDesc _); [done|].
    by destruct (String.eqb_spec (selectedSavedKey s) "").
Qed.

End SavedListFacts.

Lemma X10_save_lists_the_key_once_witness :
  let l' := savedList (saveToStorageAt Demo.seaWolfKey Demo.state) in
  head l' = Some {| key := Demo.seaWolfKey; label := Demo.seaWolfKey;
                    preview := firstSrc (photos Demo.state) |}
  /\ length (filter (fun it => key it = Demo.seaWolfKey) l') = 1%nat.
Proof.
  intros l'.
  edestruct (X10_save_lists_the_key_once Demo.state Demo.seaWolfKey)
    as (Hhead & Honce & _); [vm_compute; reflexivity|].
  split; [exact Hhead | exact Honce].
Defined.

(** ** The saved list and the loads *)

Section SavedLoadFacts.

Context `{JsonCodec}.
Variables (tz : Z) (today : string).


Lemma handle_savedList_NoDup e s s' :
  NoDup (key <$> savedList s) -> handle tz today e s = Some s' ->
  NoDup (key <$> savedList s').
Proof.
  intros Hnodup. destruct e as [name value| |k0]; cbn [handle].
  - intros [= <-]. unfold handleChange. by destruct (String.eqb name "logoUrl").
  - unfold saveToStorage. destruct (storageKey _ _ _) as [k|]; [|discriminate].
    intros [= <-]. unfold saveToStorageAt.
    destruct (Storage.setItem _ _ _); [|done].
    cbn [savedList setSavedList setSelectedSavedKey setSaveMsg writeStorage].
    by apply save_list_NoDup.
  - unfold loadFromStorage. destruct (loadKey _ _ _ _) as [k|]; [|discriminate].
    intros [= <-]. unfold loadFromStorageAt. repeat (case_match; try done).
Qed.

Lemma afterRender_savedList before s s' :
  afterRender before s = Some s' -> savedList s' = savedList s.
Proof.
  unfold afterRender.
  destruct (lookupCompany (form s !! "companyId")) as [c|] eqn:Hc; [|discriminate].
  destruct (decide _); [by intros [= <-]|].
  unfold logoEffect. destruct (logoTouched s); [by intros [= <-]|].
  rewrite Hc. by destruct (String.eqb _ ""); intros [= <-].
Qed.


(** X19. The saved list never lists a key twice: when its keys are
    distinct, they are distinct in every state that the events reach,
    whatever is typed, saved and loaded. *)
Theorem X19_saved_keys_stay_distinct (es : list Event) (s0 s : State) :
  NoDup (key <$> savedList s0) ->
  run tz today es s0 = Some s ->
  NoDup (key <$> savedList s).
Proof.
  revert s0. induction es as [|e es IH]; intros s0 Hnodup Hrun.
  - by injection Hrun as <-.
  - cbn [run] in Hrun. destruct (dispatch tz today e s0) as [s1|] eqn:Hd; [|discriminate].
    cbn [mbind option_bind] in Hrun. apply (IH s1); [|exact Hrun].
    unfold dispatch in Hd. destruct (handle tz today e s0) as [s'|] eqn:Hh; [|discriminate].
    cbn [mbind option_bind] in Hd. rewrite (afterRender_savedList _ _ _ Hd).
    by eapply handle_savedList_NoDup.
Qed.

End SavedLoadFacts.


Lemma X19_saved_keys_stay_distinct_witness :
  exists s,
    run 480 "2025-09-16" [Save; Change "customer" "ACME"; Save] Demo.state = Some s
    /\ NoDup (key <$> savedList s).
Proof.
  assert (Hrun : exists s, run 480 "2025-09-16" [Save; Change "customer" "ACME"; Save]
                             Demo.state = Some s).
  { eexists. vm_compute. reflexivity. }
  destruct Hrun as [s Hrun]. exists s. split; [exact Hrun|].
  apply (X19_saved_keys_stay_distinct 480 "2025-09-16"
           [Save; Change "customer" "ACME"; Save] Demo.state s); [|exact Hrun].
  constructor.
Defined.

(** ** The merge of a loaded form, the key of the render and the logo after a load *)

Section LoadFacts.

Context `{JsonCodec}.
Variables (tz : Z) (today : string).

Lemma coalesce_not_null a b : b <> JNull -> Js.coalesce a b <> JNull.
Proof. intros Hb. by destruct a as [[]|]. Qed.

Lemma coalesce_Some v b : v <> JNull -> Js.coalesce (Some v) b = v.
Proof. by destruct v. Qed.

(** X13. In the merge of a loaded form, a field that the loaded form has
    takes the loaded value; [recommendations] takes the loaded value
    unless it is [null] or missing, and is never [null] in the result,
    whatever the form before.  Merging the same loaded form a second time
    changes nothing. *)
Theorem X13_mergeLoaded_loaded_wins (prev : gmap string json) (loaded : json) :
  (forall k v, k <> "recommendations" -> Js.ownProps loaded !! k = Some v ->
     mergeLoaded prev loaded !! k = Some v)
  /\ (forall v, Js.member loaded "recommendations" = Some v -> v <> JNull ->
        mergeLoaded prev loaded !! "recommendations" = Some v)
  /\ hasRecommendations (mergeLoaded prev loaded)
  /\ mergeLoaded (mergeLoaded prev loaded) loaded = mergeLoaded prev loaded.
Proof.
  assert (Hrec : exists r, mergeLoaded prev loaded !! "recommendations" = Some r
                           /\ r <> JNull).
  { eexists. split; [apply mergeLoaded_recommendations|].
    apply coalesce_not_null, coalesce_not_null. discriminate. }
  split; [|split; [|split]].
  - intros k v Hk Hv. unfold mergeLoaded. rewrite lookup_insert_ne by done.
    by apply lookup_union_Some_l.
  - intros v Hv Hnull. rewrite mergeLoaded_recommendations, Hv.
    by rewrite coalesce_Some.
  - exact Hrec.
  - destruct Hrec as (r & Hr & Hnull). apply map_eq. intros k.
    destruct (decide (k = "recommendations")) as [->|Hne].
    + rewrite mergeLoaded_recommendations, Hr. rewrite (coalesce_Some r) by done.
      rewrite mergeLoaded_recommendations in Hr. injection Hr as Hr.
      destruct (Js.member loaded "recommendations") as [[]|]; cbn in *; congruence.
    + unfold mergeLoaded at 1. rewrite lookup_insert_ne by done.
      unfold mergeLoaded at 2. rewrite lookup_insert_ne by done.
      destruct (Js.ownProps loaded !! k) as [v|] eqn:Hv.
      * by rewrite !(lookup_union_Some_l _ _ _ _ Hv).
      * rewrite !lookup_union_r by done.
        unfold mergeLoaded. rewrite lookup_insert_ne by done.
        by rewrite lookup_union_r.
Qed.

(** X14. The key of the render depends on the vessel and on the two job
    dates only, which are the dependencies of its memo: two forms that
    agree on these three fields have the same key, so a change of any
    other field through [handleChange] leaves the key as it is. *)
Theorem X14_storageKey_dependencies (f f' : gmap string json) :
  f !! "vessel" = f' !! "vessel" ->
  f !! "jobDateStart" = f' !! "jobDateStart" ->
  f !! "jobDateEnd" = f' !! "jobDateEnd" ->
  storageKey tz today f = storageKey tz today f'
  /\ forall name value s,
       form s = f -> name ∉ ["vessel"; "jobDateStart"; "jobDateEnd"] ->
       storageKey tz today (form (handleChange name value s)) = storageKey tz today f'.
Proof.
  intros Hv Hs He.
  assert (Hkey : forall g, g !! "vessel" = f' !! "vessel" ->
                   g !! "jobDateStart" = f' !! "jobDateStart" ->
                   g !! "jobDateEnd" = f' !! "jobDateEnd" ->
                   storageKey tz today g = storageKey tz today f').
  { intros g Hgv Hgs Hge. unfold storageKey. by rewrite Hgv, Hgs, Hge. }
  split; [by apply Hkey|].
  intros name value s <- Hname.
  assert (Hne : name <> "vessel" /\ name <> "jobDateStart" /\ name <> "jobDateEnd").
  { rewrite !not_elem_of_cons in Hname. tauto. }
  destruct Hne as (Hn1 & Hn2 & Hn3).
  assert (Hform : form (handleChange name value s) = <[name := JStr value]> (form s)).
  { unfold handleChange. by destruct (String.eqb name "logoUrl"). }
  rewrite Hform. apply Hkey; by rewrite lookup_insert_ne.
Qed.

Lemma loadFromStorageAt_logoTouched k s :
  logoTouched (loadFromStorageAt k s) = logoTouched s.
Proof. unfold loadFromStorageAt. repeat (case_match; try done). Qed.

(** X15. The flag of the logo is not part of a saved record.  When a load
    brings the form of another company into a state whose logo was never
    edited, the effect on the company runs after it and puts the default
    logo of that company in the form, whatever logo the record holds.
    When the logo was edited, or the company is the same, the state is
    the one that the load made, with the logo of the record. *)
Theorem X15_load_of_another_company_resets_logo (key : option string) (s s' : State) :
  dispatch tz today (Load key) s = Some s' ->
  exists k c,
    loadKey tz today key s = Some k
    /\ lookupCompany (form s' !! "companyId") = Some c
    /\ logoTouched s' = logoTouched s
    /\ (logoTouched s = false ->
        lookupCompany (form s !! "companyId") <> Some c ->
        form s' !! "logoUrl" = Some (JStr (logoUrl (COMPANIES c))))
    /\ (logoTouched s = true \/ lookupCompany (form s !! "companyId") = Some c ->
        s' = loadFromStorageAt k s).
Proof.
  unfold dispatch. cbn [handle]. unfold loadFromStorage.
  destruct (loadKey tz today key s) as [k|]; [|discriminate].
  cbn [mbind option_bind]. pose proof (loadFromStorageAt_logoTouched k s) as Ht.
  set (s1 := loadFromStorageAt k s) in *. unfold afterRender.
  destruct (lookupCompany (form s1 !! "companyId")) as [c|] eqn:Hc; [|discriminate].
  destruct (decide _) as [Hsame|Hdiff].
  - intros [= <-]. exists k, c. repeat split; try done.
  - unfold logoEffect. rewrite Ht. destruct (logoTouched s) eqn:Hs.
    + intros [= <-]. exists k, c. repeat split; try done.
    + rewrite Hc, logoUrl_not_empty. intros [= <-]. exists k, c.
      cbn [form setForm logoTouched]. rewrite lookup_insert_ne by done.
      split; [done|]. split; [done|]. split; [by rewrite Ht|]. split.
      * intros _ _. by rewrite lookup_insert_eq.
      * intros [?|?]; done.
Qed.

End LoadFacts.

Lemma X14_storageKey_dependencies_witness :
  storageKey 480 "2025-09-16" (form Demo.state)
  = storageKey 480 "2025-09-16" (form (handleChange "customer" "ACME" Demo.state)).
Proof.
  destruct (X14_storageKey_dependencies 480 "2025-09-16" (form Demo.state)
              (form (handleChange "customer" "ACME" Demo.state))) as [Hkey _];
    [vm_compute; reflexivity ..|].
  exact Hkey.
Defined.

Lemma X15_load_of_another_company_resets_logo_witness :
  exists s',
    dispatch 480 "2025-09-16" (Load (Some "ITI160925")) Demo.itiState = Some s'
    /\ form s' !! "companyId" = Some (JStr "ITI")
    /\ form s' !! "logoUrl" = Some (JStr (logoUrl (COMPANIES ITI))).
Proof.
  assert (Hd : exists s', dispatch 480 "2025-09-16" (Load (Some "ITI160925")) Demo.itiState
                          = Some s' /\ form s' !! "companyId" = Some (JStr "ITI")).
  { eexists. split; vm_compute; reflexivity. }
  destruct Hd as (s' & Hd & Hcompany). exists s'. split; [exact Hd|].
  split; [exact Hcompany|].
  destruct (X15_load_of_another_company_resets_logo 480 "2025-09-16" _ _ _ Hd)
    as (k & c & _ & Hc & _ & Hlogo & _).
  rewrite Hcompany in Hc. injection Hc as <-.
  apply Hlogo; [reflexivity | discriminate].
Defined.

(** ** The key of a vessel and of a date input *)

Section KeyFacts.

Import JsString.

Lemma upperAlnum_fixed c :
  isUpperAlnum c = true -> isAlnum c = true /\ upperChar c = c.
Proof. destruct c as [[] [] [] [] [] [] [] []]; (by split) || discriminate. Qed.

Lemma upper_alnum_normal s :
  allChars isUpperAlnum s = true -> toUpperCase (stripNonAlnum s) = s.
Proof.
  induction s as [|c s IH]; [reflexivity|]. cbn [allChars stripNonAlnum].
  intros [Hc Hs]%andb_true_iff. destruct (upperAlnum_fixed c Hc) as [Ha Hu].
  rewrite Ha. cbn [toUpperCase]. by rewrite Hu, IH.
Qed.

Lemma toUpperCase_empty s : toUpperCase s = "" -> s = "".
Proof. by destruct s. Qed.

Lemma list_ascii_app a b :
  String.list_ascii_of_string (a +:+ b)
  = (String.list_ascii_of_string a ++ String.list_ascii_of_string b)%list.
Proof.
  induction a as [|c a IH]; [reflexivity|].
  change (String c a +:+ b) with (String c (a +:+ b)).
  cbn [String.list_ascii_of_string app]. by rewrite IH.
Qed.

Lemma years_agree : forallb yearDigitsAgree (seqZ 1970 130) = true.
Proof. vm_compute. reflexivity. Qed.

Lemma two_digits_agree : forallb twoDigitsAgree (seqZ 0 100) = true.
Proof. vm_compute. reflexivity. Qed.

Lemma year_digits y :
  1970 <= y < 2100 ->
  (exists a b c d,
     String.list_ascii_of_string (repeat0 (4 - String.length (pretty y)) +:+ pretty y)
     = [a; b; c; d]
     /\ JsDate.digits 0 [a; b; c; d] = Some y)
  /\ sliceLast2 (pretty y) = padStart2 (pretty (y mod 100)).
Proof.
  intros Hy. pose proof years_agree as Hall. rewrite forallb_forall in Hall.
  specialize (Hall y ltac:(apply list_elem_of_In, elem_of_seqZ; lia)).
  unfold yearDigitsAgree in Hall.
  destruct (String.list_ascii_of_string _) as [|a [|b [|c [|d [|? ?]]]]]; try discriminate.
  destruct (JsDate.digits 0 [a; b; c; d]) as [y'|] eqn:Hdigits; [|discriminate].
  apply andb_true_iff in Hall as [Hy' Hlast].
  apply Z.eqb_eq in Hy'. subst y'. apply String.eqb_eq in Hlast.
  split; [|exact Hlast]. by exists a, b, c, d.
Qed.

Lemma two_digits n :
  0 <= n < 100 ->
  exists a b, String.list_ascii_of_string (padStart2 (pretty n)) = [a; b]
              /\ JsDate.digits 0 [a; b] = Some n.
Proof.
  intros Hn. pose proof two_digits_agree as Hall. rewrite forallb_forall in Hall.
  specialize (Hall n ltac:(apply list_elem_of_In, elem_of_seqZ; lia)).
  unfold twoDigitsAgree in Hall.
  destruct (String.list_ascii_of_string _) as [|a [|b [|? ?]]]; try discriminate.
  destruct (JsDate.digits 0 [a; b]) as [n'|] eqn:Hdigits; [|discriminate].
  apply Z.eqb_eq in Hall. subst n'. by exists a, b.
Qed.

Lemma daysInMonth_le y m : JsDate.daysInMonth y m <= 31.
Proof. unfold JsDate.daysInMonth. repeat case_match; lia. Qed.

(** The reader of dates reads the value of a date input as midnight UTC
    of its day. *)
Lemma parse_isoDate y m d :
  1970 <= y < 2100 -> 1 <= m <= 12 -> 1 <= d <= JsDate.daysInMonth y m ->
  JsDate.parse (isoDate y m d)
  = Some (JsDate.dayFromCivil y m d * JsDate.msPerDay).
Proof.
  intros Hy Hm Hd. pose proof (daysInMonth_le y m) as Hle.
  destruct (year_digits y Hy) as [(y1 & y2 & y3 & y4 & Hyl & Hyd) _].
  destruct (two_digits m ltac:(lia)) as (m1 & m2 & Hml & Hmd).
  destruct (two_digits d ltac:(lia)) as (d1 & d2 & Hdl & Hdd).
  unfold JsDate.parse, isoDate.
  rewrite <- (string_app_assoc (repeat0 (4 - String.length (pretty y))) (pretty y)).
  rewrite (list_ascii_app (_ +:+ pretty y)), Hyl, !list_ascii_app, Hml, Hdl.
  cbn [String.list_ascii_of_string app]. rewrite Hyd, Hmd, Hdd.
  destruct (Z.leb_spec 1 m); [|lia]. destruct (Z.leb_spec m 12); [|lia].
  destruct (Z.leb_spec 1 d); [|lia].
  destruct (Z.leb_spec d (JsDate.daysInMonth y m)); [|lia].
  reflexivity.
Qed.

End KeyFacts.

(** X16. The vessel part of a key has upper-case letters and digits only.
    It is empty exactly for a name that is not blank and has no letter
    and no digit.  When it is not empty it is a normal form: taken as the
    name of a vessel, it gives itself back. *)
Theorem X16_vesselKey_normal_form (vessel : string) :
  JsString.allChars JsString.isUpperAlnum (vesselKey vessel) = true
  /\ (vesselKey vessel = "" <-> vessel <> "" /\ JsString.stripNonAlnum vessel = "")
  /\ (vesselKey vessel <> "" -> vesselKey (vesselKey vessel) = vesselKey vessel).
Proof.
  split; [apply vesselKey_upper_alnum|]. split.
  - split.
    + intros Hempty. destruct (String.eqb_spec vessel "") as [->|Hne]; [done|].
      split; [done|]. rewrite vesselKey_named in Hempty by done.
      by apply toUpperCase_empty.
    + intros [Hne Hstrip]. by apply vesselKey_stripped_away.
  - intros Hne. rewrite (vesselKey_named (vesselKey vessel)) by done.
    apply upper_alnum_normal, vesselKey_upper_alnum.
Qed.

(** X17. The key of the value [YYYY-MM-DD] of a date input, for a date
    from 1970 to 2099.  On a host that is not behind UTC it is the vessel
    part followed by the day, the month and the last two digits of the
    year of that date, each on two digits.  On a host behind UTC it is
    the key of the day before. *)
Theorem X17_key_of_a_date_input (tz : Z) (vessel : string) (y m d : Z) :
  1970 <= y < 2100 -> 1 <= m <= 12 -> 1 <= d <= JsDate.daysInMonth y m ->
  (0 <= tz < 1440 ->
     computeStorageKey tz vessel (isoDate y m d)
     = vesselKey vessel +:+ JsString.padStart2 (pretty d)
       +:+ JsString.padStart2 (pretty m) +:+ JsString.padStart2 (pretty (y mod 100)))
  /\ (-1440 <= tz < 0 ->
        computeStorageKey tz vessel (isoDate y m d)
        = let '(y', m', d') := JsDate.civilFromDay (JsDate.dayFromCivil y m d - 1) in
          vesselKey vessel +:+ JsString.padStart2 (pretty d')
          +:+ JsString.padStart2 (pretty m') +:+ JsString.sliceLast2 (pretty y')).
Proof.
  intros Hy Hm Hd. pose proof (parse_isoDate y m d Hy Hm Hd) as Hparse. split.
  - intros Htz. rewrite (key_east_of_greenwich tz vessel _ y m d) by assumption.
    by rewrite (proj2 (year_digits y Hy)).
  - intros Htz. by rewrite (key_west_of_greenwich tz vessel _ _ Htz Hparse).
Qed.

Lemma X17_key_of_a_date_input_witness :
  computeStorageKey 480 "Sea Wolf" (isoDate 2025 9 16) = "SEAWOLF160925"
  /\ computeStorageKey (-300) "Sea Wolf" (isoDate 2025 9 16) = "SEAWOLF150925".
Proof.
  destruct (X17_key_of_a_date_input 480 "Sea Wolf" 2025 9 16) as [Heast _];
    [lia | lia | vm_compute; split; discriminate |].
  destruct (X17_key_of_a_date_input (-300) "Sea Wolf" 2025 9 16) as [_ Hwest];
    [lia | lia | vm_compute; split; discriminate |].
  split; [rewrite Heast by lia | rewrite Hwest by lia]; reflexivity.
Defined.
